(** * Monthly OHLCV pipeline of [main.py]: model and properties

    [main.py] runs four stages over pandas tables:
    [load_and_prepare_data], [aggregate_to_monthly],
    [add_technical_indicators] and [save_by_ticker].

    The pandas operations the script calls are modelled here by what they
    compute on tables whose ticker, price and volume cells are all present:
    - a table is its header (the column labels, in order) and its rows;
    - a date cell read from the file holds a calendar date or NaT;
    - a float64 cell that holds a number is the rational number it holds
      ([Qc]: every finite float64 is one), and NaN is the absence of a
      number; float64 arithmetic is the exact operation followed by
      rounding to the nearest float64 ([round64]); results beyond the
      largest float64 (infinities) are not modelled;
    - volumes are int64: sums wrap around modulo 2^64;
    - a raised exception is an [Err] result, and a file that cannot be
      written raises. *)

From Stdlib Require Import ZArith QArith Qcanon String Ascii.
From stdpp Require Import base decidable option list strings sorting gmap.


(** ** Exceptions *)

(** The exceptions the pipeline can meet: a missing column ([KeyError] in
    pandas, the spec's SchemaError), a date text that [pd.to_datetime]
    rejects ([ValueError], the spec's ParseError), a file that cannot be
    read or written ([OSError], the spec's IOError), and the exception of
    the month grouper when it has no date to start from. *)
Inductive error : Type :=
  | SchemaError (missing : list string)
  | ParseError (text : string)
  | IOError (path : string)
  | GrouperError.

Inductive result (A : Type) : Type :=
  | Ok (a : A)
  | Err (e : error).
Arguments Ok {A} a.
Arguments Err {A} e.

Global Instance result_ret : MRet result := fun A a => Ok a.

Global Instance result_bind : MBind result := fun A B k r =>
  match r with
  | Ok a => k a
  | Err e => Err e
  end.

(** ** Calendar dates *)

Record Date : Type := mkDate { year : Z; month : Z; day : Z }.

Global Instance Date_eq_dec : EqDecision Date.
Proof. solve_decision. Defined.

Definition date_leb (a b : Date) : bool :=
  ((year a <? year b)
   || ((year a =? year b)
       && ((month a <? month b)
           || ((month a =? month b) && (day a <=? day b)))))%Z.

Definition is_leap (y : Z) : bool :=
  (((y mod 4 =? 0) && negb (y mod 100 =? 0)) || (y mod 400 =? 0))%Z.

Definition days_in_month (y m : Z) : Z :=
  (if m =? 2 then (if is_leap y then 29 else 28)
   else if (m =? 4) || (m =? 6) || (m =? 9) || (m =? 11) then 30
   else 31)%Z.

(** The label pandas gives the bucket of frequency ['ME']: the last day of
    the calendar month the date falls in. *)
Definition month_end (d : Date) : Date :=
  mkDate (year d) (month d) (days_in_month (year d) (month d)).

(** A cell of a datetime64 column: a date, or NaT where the date is
    missing. *)
Inductive datetime : Type :=
  | Timestamp (d : Date)
  | NaT.

Global Instance datetime_eq_dec : EqDecision datetime.
Proof. solve_decision. Defined.

(** The order in which [sort_values] puts datetime cells: dates in
    calendar order, NaT after every date ([na_position='last']). *)
Definition datetime_leb (a b : datetime) : bool :=
  match a, b with
  | Timestamp x, Timestamp y => date_leb x y
  | _, NaT => true
  | NaT, Timestamp _ => false
  end.

(** ** Order on ticker symbols and on sort keys *)

(** Python compares [str] values by code point; on UTF-8 bytes that is the
    lexicographic order of [String.compare]. *)
Definition key_leb (a b : string * Date) : bool :=
  match String.compare (fst a) (fst b) with
  | Lt => true
  | Eq => date_leb (snd a) (snd b)
  | Gt => false
  end.

(** The same order on keys whose date can be NaT. *)
Definition key_leb_na (a b : string * datetime) : bool :=
  match String.compare (fst a) (fst b) with
  | Lt => true
  | Eq => datetime_leb (snd a) (snd b)
  | Gt => false
  end.

(** ** Stable sorting *)

Section StableSort.
Context {A : Type} (le : A → A → bool).

(** [x] comes from further left in the input than every element of [l]:
    it is put in front of the first element that is not below it. *)
Fixpoint insert_sorted (x : A) (l : list A) : list A :=
  match l with
  | [] => [x]
  | y :: l' => if le x y then x :: y :: l' else y :: insert_sorted x l'
  end.

Definition stable_sort (l : list A) : list A := foldr insert_sorted [] l.
End StableSort.

(** ** int64 arithmetic *)

Definition wrap64 (z : Z) : Z := ((z + 2 ^ 63) mod 2 ^ 64 - 2 ^ 63)%Z.

Definition add64 (a b : Z) : Z := wrap64 (a + b).

Definition in_int64 (z : Z) : Prop := (- 2 ^ 63 <= z < 2 ^ 63)%Z.

Global Instance in_int64_dec (z : Z) : Decision (in_int64 z).
Proof. unfold in_int64. apply _. Defined.

(** ** float64 arithmetic *)

(** The integer nearest to [n / d], the even one of the two when [n / d]
    lies half way ([0 <= n], [0 < d]). *)
Definition round_half_even (n d : Z) : Z :=
  let q := (n / d)%Z in
  match (2 * (n mod d) ?= d)%Z with
  | Lt => q
  | Gt => (q + 1)%Z
  | Eq => if Z.even q then q else (q + 1)%Z
  end.

(** The exponent [e] with [2 ^ e <= n / d < 2 ^ (e + 1)] ([0 < n],
    [0 < d]). *)
Definition binade (n d : Z) : Z :=
  let e := (Z.log2 n - Z.log2 d)%Z in
  if (if 0 <=? e then d * 2 ^ e <=? n else d <=? n * 2 ^ (- e))%Z
  then e else (e - 1)%Z.

(** The float64 nearest to [n / d]: a multiple of [2 ^ ex], where [ex]
    leaves 53 bits to the significand and is not below -1074. *)
Definition round64_pos (n d : Z) : Q :=
  let ex := Z.max (binade n d - 52) (-1074) in
  if (0 <=? ex)%Z
  then inject_Z (round_half_even n (d * 2 ^ ex) * 2 ^ ex)
  else Qmake (round_half_even (n * 2 ^ (- ex)) d) (Z.to_pos (2 ^ (- ex))).

(** Rounding to the nearest float64, ties to even. *)
Definition round64 (q : Qc) : Qc :=
  match Qnum q with
  | Z0 => 0%Qc
  | Zpos n => Q2Qc (round64_pos (Zpos n) (Zpos (Qden q)))
  | Zneg n => (- Q2Qc (round64_pos (Zpos n) (Zpos (Qden q))))%Qc
  end.

(** The four operations of float64 arithmetic. *)
Definition fadd (a b : Qc) : Qc := round64 (a + b).
Definition fsub (a b : Qc) : Qc := round64 (a - b).
Definition fmul (a b : Qc) : Qc := round64 (a * b).
Definition fdiv (a b : Qc) : Qc := round64 (a / b).

Definition Qc_of_Z (z : Z) : Qc := Q2Qc (inject_Z z).

Definition Qc_of_nat (n : nat) : Qc := Qc_of_Z (Z.of_nat n).

Definition Qc_ltb (a b : Qc) : bool :=
  match (a ?= b)%Qc with Lt => true | _ => false end.

(** ** Tables *)

(** One row of a table: its index label and its cells.  The ticker, price
    and volume cells are always present; the four indicator cells are
    float cells that can hold NaN ([None]).  [D] is the type of the [date]
    cell: text as it stands in the file, a [datetime] after
    [pd.to_datetime], a calendar date in the monthly tables. *)
Record Row (D : Type) : Type := mkRow {
  label : nat;
  ticker : string;
  date : D;
  open : Qc;
  high : Qc;
  low : Qc;
  close : Qc;
  volume : Z;
  SMA_10 : option Qc;
  SMA_20 : option Qc;
  EMA_10 : option Qc;
  EMA_20 : option Qc
}.
Arguments mkRow {D}.
Arguments label {D}.
Arguments ticker {D}.
Arguments date {D}.
Arguments open {D}.
Arguments high {D}.
Arguments low {D}.
Arguments close {D}.
Arguments volume {D}.
Arguments SMA_10 {D}.
Arguments SMA_20 {D}.
Arguments EMA_10 {D}.
Arguments EMA_20 {D}.

(** A DataFrame: the column labels in order, and the rows in order.  Only
    the cells of a row that the header names belong to the table. *)
Record DataFrame (D : Type) : Type := mkFrame {
  columns : list string;
  rows : list (Row D)
}.
Arguments mkFrame {D}.
Arguments columns {D}.
Arguments rows {D}.

(** [df[name]], [df.groupby(name)], [sort_values(by=name)]: a label the
    header lacks raises [KeyError]. *)
Definition require {D : Type} (df : DataFrame D) (names : list string)
  : result unit :=
  match filter (λ c, c ∉ columns df) names with
  | [] => Ok tt
  | c :: _ => Err (SchemaError [c])
  end.

Definition sort_key {D : Type} (r : Row D) : string * D := (ticker r, date r).

Definition row_leb (a b : Row Date) : bool := key_leb (sort_key a) (sort_key b).

Definition row_leb_na (a b : Row datetime) : bool :=
  key_leb_na (sort_key a) (sort_key b).

(** [df.sort_values(by=['ticker', 'date'])]: a new table, the rows in
    ascending lexicographic order [leb] of the two keys; rows with equal
    keys keep their order (pandas sorts several keys with a stable
    lexsort). *)
Definition sort_values {D : Type} (leb : Row D → Row D → bool)
    (df : DataFrame D) : result (DataFrame D) :=
  _ ← require df ["ticker"; "date"];
  Ok (mkFrame (columns df) (stable_sort leb (rows df))).

(** [Series.unique()]: the distinct values in order of first appearance. *)
Fixpoint unique {A : Type} `{EqDecision A} (l : list A) : list A :=
  match l with
  | [] => []
  | x :: l' => x :: filter (λ y, y ≠ x) (unique l')
  end.

(** ** Step 1: ingestion *)

Definition INPUT_FILE : string := "raw_data/daily_stock_data.csv".
Definition OUTPUT_DIR : string := "output".

(** [pd.read_csv(file_path)]: the table held by the file, the date cells
    as the text that stands in the file. *)
Definition read_csv (files : gmap string (DataFrame string)) (file_path : string)
  : result (DataFrame string) :=
  match files !! file_path with
  | Some df => Ok df
  | None => Err (IOError file_path)
  end.

Definition set_date {D E : Type} (r : Row D) (d : E) : Row E :=
  mkRow (label r) (ticker r) d (open r) (high r) (low r) (close r) (volume r)
    (SMA_10 r) (SMA_20 r) (EMA_10 r) (EMA_20 r).

Section Loader.
(** What becomes of the text of one date cell: [Some (Timestamp d)] when
    [pd.to_datetime] reads it as the calendar date [d]; [Some NaT] when
    the cell counts as missing (an empty cell and the other texts
    [read_csv] takes for NA, and the texts [pd.to_datetime] takes for
    NaT); [None] when [pd.to_datetime] rejects it. *)
Variable parse_date : string → option datetime.

(** [df['date'] = pd.to_datetime(df['date'])] with the default
    [errors='raise']: every date cell is replaced by the date read from
    it, or by NaT; the first text that is rejected raises. *)
Fixpoint to_datetime (col : list (Row string)) : result (list (Row datetime)) :=
  match col with
  | [] => Ok []
  | r :: col' =>
      match parse_date (date r) with
      | None => Err (ParseError (date r))
      | Some d => rest ← to_datetime col'; Ok (set_date r d :: rest)
      end
  end.

Definition load_and_prepare_data
    (files : gmap string (DataFrame string)) (file_path : string)
  : result (DataFrame datetime) :=
  df ← read_csv files file_path;
  _ ← require df ["date"];
  parsed ← to_datetime (rows df);
  sort_values row_leb_na (mkFrame (columns df) parsed).
End Loader.

(** ** Step 2: monthly aggregation *)

(** The reductions the script names: ['first'], ['last'], ['max'],
    ['min'], ['sum']. *)
Inductive aggfunc : Type :=
  | agg_first | agg_last | agg_max | agg_min | agg_sum.

(** The aggregation dictionary of the script, in the order it is written. *)
Definition agg_dict : list (string * aggfunc) :=
  [("open", agg_first); ("close", agg_last); ("high", agg_max);
   ("low", agg_min); ("volume", agg_sum)].

(** One step of the running maximum and minimum of a group. *)
Definition Qc_max (acc x : Qc) : Qc :=
  match (x ?= acc)%Qc with Gt => x | _ => acc end.

Definition Qc_min (acc x : Qc) : Qc :=
  match (x ?= acc)%Qc with Lt => x | _ => acc end.

(** The group key: the ticker and the month-end label of the date. *)
Definition bucket (r : Row Date) : string * Date :=
  (ticker r, month_end (date r)).

(** How each function of [agg_dict] reduces its column over the rows
    [r :: g] of one group, taken in table order.  The script sums the
    volume only: no price column goes through [agg_sum]. *)
Definition agg_price (f : aggfunc) (col : Row Date → Qc)
    (r : Row Date) (g : list (Row Date)) : Qc :=
  match f with
  | agg_first => col r
  | agg_last => col (List.last g r)
  | agg_max => foldl Qc_max (col r) (col <$> g)
  | agg_min => foldl Qc_min (col r) (col <$> g)
  | agg_sum => foldl Qcplus (col r) (col <$> g)
  end.

Definition agg_volume (f : aggfunc) (r : Row Date) (g : list (Row Date)) : Z :=
  match f with
  | agg_first => volume r
  | agg_last => volume (List.last g r)
  | agg_max => foldl Z.max (volume r) (volume <$> g)
  | agg_min => foldl Z.min (volume r) (volume <$> g)
  | agg_sum => foldl add64 0%Z (volume <$> (r :: g))
  end.

Definition agg_of (name : string) : aggfunc :=
  default agg_first (snd ∘ snd <$> list_find (λ p, fst p = name) agg_dict).

(** One output row per group: the keys, then every column of [agg_dict]
    reduced by its function. *)
Definition agg_group (k : string * Date) (g : list (Row Date))
  : list (Row Date) :=
  match g with
  | [] => []
  | r :: g' =>
      [mkRow 0 (fst k) (snd k)
         (agg_price (agg_of "open") open r g')
         (agg_price (agg_of "high") high r g')
         (agg_price (agg_of "low") low r g')
         (agg_price (agg_of "close") close r g')
         (agg_volume (agg_of "volume") r g')
         None None None None]
  end.

(** The groups of [groupby] (default [sort=True]): the distinct keys in
    ascending order. *)
Definition group_keys (l : list (Row Date)) : list (string * Date) :=
  stable_sort key_leb (unique (bucket <$> l)).

(** [reset_index()]: the keys become columns and the rows are labelled
    0, 1, 2, ... *)
Definition set_label {D : Type} (i : nat) (r : Row D) : Row D :=
  mkRow i (ticker r) (date r) (open r) (high r) (low r) (close r) (volume r)
    (SMA_10 r) (SMA_20 r) (EMA_10 r) (EMA_20 r).

Definition reset_index {D : Type} (l : list (Row D)) : list (Row D) :=
  imap set_label l.

(** The rows without their index labels. *)
Definition unlabelled {D : Type} (l : list (Row D)) : list (Row D) :=
  set_label 0 <$> l.

(** [aggregate_to_monthly] on a table in which every row has a date. *)
Definition aggregate_to_monthly (df : DataFrame Date)
  : result (DataFrame Date) :=
  _ ← require df ["ticker"; "date"];
  match filter (λ c, c ∉ columns df) (fst <$> agg_dict) with
  | [] =>
      Ok (mkFrame ("ticker" :: "date" :: (fst <$> agg_dict))
            (reset_index
               (group_keys (rows df) ≫= λ k,
                  agg_group k (filter (λ r, bucket r = k) (rows df)))))
  | missing => Err (SchemaError missing)
  end.

(** The rows that have a date, in table order. *)
Definition dated_rows (l : list (Row datetime)) : list (Row Date) :=
  omap (λ r, match date r with
             | Timestamp d => Some (set_date r d)
             | NaT => None
             end) l.

(** [df.groupby(['ticker', pd.Grouper(key='date', freq='ME')])] on the
    table the loader returns: the month grouper cuts the time between the
    earliest and the latest date into months; a row whose date is NaT
    falls into no month and belongs to no group (it is left out, and
    nothing is raised); when the table has rows and none of them has a
    date, there is no earliest date and the grouper raises. *)
Definition groupby_month (df : DataFrame datetime) : result (DataFrame Date) :=
  _ ← require df ["ticker"; "date"];
  match rows df, dated_rows (rows df) with
  | _ :: _, [] => Err GrouperError
  | _, dated => Ok (mkFrame (columns df) dated)
  end.

(** [aggregate_to_monthly] on the table the loader returns, where a date
    can be NaT. *)
Definition aggregate_to_monthly_na (df : DataFrame datetime)
  : result (DataFrame Date) :=
  dated ← groupby_month df;
  aggregate_to_monthly dated.

(** ** Step 3: technical indicators *)

(** *** Rolling mean *)

(** The variables of pandas' rolling mean: the number of observations in
    the window, their running sum, the number of negative ones, the
    compensation terms of the additions and of the removals (Kahan
    summation), and the length and the value of the run of equal values
    that ends at the last value added. *)
Record MeanState : Type := mkMean {
  nobs : nat;
  sum_x : Qc;
  neg_ct : nat;
  compensation_add : Qc;
  compensation_remove : Qc;
  num_consecutive_same_value : nat;
  prev_value : Qc
}.

(** [add_mean]: a value enters the window. *)
Definition add_mean (val : Qc) (s : MeanState) : MeanState :=
  let y := fsub val (compensation_add s) in
  let t := fadd (sum_x s) y in
  mkMean (S (nobs s)) t
    (if Qc_ltb val 0 then S (neg_ct s) else neg_ct s)
    (fsub (fsub t (sum_x s)) y) (compensation_remove s)
    (if Qc_eq_bool val (prev_value s)
     then S (num_consecutive_same_value s) else 1%nat)
    val.

(** [remove_mean]: a value leaves the window. *)
Definition remove_mean (val : Qc) (s : MeanState) : MeanState :=
  let y := fsub (- val) (compensation_remove s) in
  let t := fadd (sum_x s) y in
  mkMean (pred (nobs s)) t
    (if Qc_ltb val 0 then pred (neg_ct s) else neg_ct s)
    (compensation_add s) (fsub (fsub t (sum_x s)) y)
    (num_consecutive_same_value s) (prev_value s).

(** [calc_mean]: NaN when the window holds fewer than [minp]
    observations; else the running sum divided by their number, replaced
    by the repeated value when the window holds one value only, and by 0
    when its sign is not that of the observations. *)
Definition calc_mean (minp : nat) (s : MeanState) : option Qc :=
  if ((minp <=? nobs s) && (0 <? nobs s))%nat then
    let result := fdiv (sum_x s) (Qc_of_nat (nobs s)) in
    Some (if (nobs s <=? num_consecutive_same_value s)%nat then prev_value s
          else if ((neg_ct s =? 0)%nat && Qc_ltb result 0) then 0%Qc
          else if ((neg_ct s =? nobs s)%nat && Qc_ltb 0 result) then 0%Qc
          else result)
  else None.

(** The state before the first value [val] of a window is added. *)
Definition mean_setup (val : Qc) : MeanState := mkMean 0 0 0 0 0 0 val.

(** The loop of pandas' [roll_mean] over the windows that end at
    positions 0, 1, 2, ...: the first window is set up afresh (as is every
    window when they do not overlap); at every later position [i] the
    value that leaves the window ([values[i - window]], once
    [i >= window]) is removed, the new value is added, and the mean is
    taken of the state. *)
Fixpoint roll_mean (window minp : nat) (values : list Qc) (i : nat)
    (s : MeanState) (todo : list Qc) : list (option Qc) :=
  match todo with
  | [] => []
  | val :: todo' =>
      let s' :=
        if ((i =? 0) || (window <=? 1))%nat
        then add_mean val (mean_setup val)
        else add_mean val
               (if (window <=? i)%nat
                then remove_mean (nth (i - window) values 0%Qc) s else s) in
      calc_mean minp s' :: roll_mean window minp values (S i) s' todo'
  end.

(** [x.rolling(window=k).mean()]: [min_periods] defaults to the window. *)
Definition rolling_mean (window : nat) (x : list Qc) : list (option Qc) :=
  roll_mean window window x 0 (mean_setup 0) x.

(** *** Exponentially weighted mean *)

(** [span] to smoothing factor: [com = (span - 1) / 2],
    [alpha = 1. / (1. + com)]. *)
Definition ewm_alpha (span : Z) : Qc :=
  fdiv 1 (fadd 1 (fdiv (Qc_of_Z (span - 1)) (Qc_of_Z 2))).

(** The loop of pandas' [ewm] with [adjust=False]: the old weight is 1
    before each step and is scaled by [old_wt_factor = 1. - alpha]; the new
    weight is [alpha]; the weighted value is renormalised by the sum of
    the two weights, and left as it is when the new value equals it. *)
Fixpoint ewm_loop (alpha : Qc) (minp : nat) (weighted : Qc) (nobs : nat)
    (todo : list Qc) : list (option Qc) :=
  match todo with
  | [] => []
  | cur :: todo' =>
      let nobs' := S nobs in
      let old_wt_factor := fsub 1 alpha in
      let old_wt := fmul 1 old_wt_factor in
      let new_wt := alpha in
      let weighted' :=
        if Qc_eq_bool weighted cur then weighted
        else fdiv (fadd (fmul old_wt weighted) (fmul new_wt cur))
                  (fadd old_wt new_wt) in
      (if (minp <=? nobs')%nat then Some weighted' else None)
        :: ewm_loop alpha minp weighted' nobs' todo'
  end.

(** [x.ewm(span=k, adjust=False).mean()]: [min_periods=0] is raised to 1;
    the first value seeds the recursion. *)
Definition ewm_mean (span : Z) (x : list Qc) : list (option Qc) :=
  match x with
  | [] => []
  | x0 :: rest =>
      let minp := 1%nat in
      let nobs := 1%nat in
      (if (minp <=? nobs)%nat then Some x0 else None)
        :: ewm_loop (ewm_alpha span) minp x0 nobs rest
  end.

(** *** Grouped transform *)

(** [df.groupby('ticker')['close']]: for every row, its ticker and its
    close, in table order. *)
Definition groupby_close (l : list (Row Date)) : list (string * Qc) :=
  (λ r, (ticker r, close r)) <$> l.

(** [group.transform(f)]: [f] is applied to the close series of each
    ticker, and each result goes back to the row its input came from; the
    row at position [i] is the [j]-th of its ticker, [j] being the number of
    rows of that ticker before it.  The index labels of the table are
    taken to be distinct, as [reset_index] leaves them, so that results and
    rows align by position. *)
Definition transform (f : list Qc → list (option Qc))
    (group : list (string * Qc)) : list (option Qc) :=
  imap (λ i p,
          mjoin (f (snd <$> filter (λ q, fst q = fst p) group)
                   !! length (filter (λ q, fst q = fst p) (take i group))))
       group.

(** [df[name] = series] for the four indicator columns: the cell of every
    row is set, and a new label goes to the end of the header. *)
Definition set_cell (name : string) (r : Row Date) (v : option Qc) : Row Date :=
  if decide (name = "SMA_10") then
    mkRow (label r) (ticker r) (date r) (open r) (high r) (low r) (close r)
      (volume r) v (SMA_20 r) (EMA_10 r) (EMA_20 r)
  else if decide (name = "SMA_20") then
    mkRow (label r) (ticker r) (date r) (open r) (high r) (low r) (close r)
      (volume r) (SMA_10 r) v (EMA_10 r) (EMA_20 r)
  else if decide (name = "EMA_10") then
    mkRow (label r) (ticker r) (date r) (open r) (high r) (low r) (close r)
      (volume r) (SMA_10 r) (SMA_20 r) v (EMA_20 r)
  else if decide (name = "EMA_20") then
    mkRow (label r) (ticker r) (date r) (open r) (high r) (low r) (close r)
      (volume r) (SMA_10 r) (SMA_20 r) (EMA_10 r) v
  else r.

Definition setitem (name : string) (series : list (option Qc))
    (df : DataFrame Date) : DataFrame Date :=
  mkFrame
    (if decide (name ∈ columns df) then columns df else columns df ++ [name])
    (zip_with (set_cell name) (rows df) series).

Definition add_technical_indicators (df : DataFrame Date)
  : result (DataFrame Date) :=
  df ← sort_values row_leb df;
  _ ← require df ["ticker"];
  _ ← require df ["close"];
  let group := groupby_close (rows df) in
  let df := setitem "SMA_10" (transform (rolling_mean 10) group) df in
  let df := setitem "SMA_20" (transform (rolling_mean 20) group) df in
  let df := setitem "EMA_10" (transform (ewm_mean 10) group) df in
  let df := setitem "EMA_20" (transform (ewm_mean 20) group) df in
  Ok df.

(** ** Step 4: one file per ticker *)

Inductive cell : Type :=
  | Text (s : string)
  | Stamp (d : Date)
  | Float (q : Qc)
  | Int (z : Z)
  | NaN.

Definition float_cell (v : option Qc) : cell :=
  match v with Some q => Float q | None => NaN end.

Definition cell_of (r : Row Date) (c : string) : cell :=
  if decide (c = "ticker") then Text (ticker r)
  else if decide (c = "date") then Stamp (date r)
  else if decide (c = "open") then Float (open r)
  else if decide (c = "high") then Float (high r)
  else if decide (c = "low") then Float (low r)
  else if decide (c = "close") then Float (close r)
  else if decide (c = "volume") then Int (volume r)
  else if decide (c = "SMA_10") then float_cell (SMA_10 r)
  else if decide (c = "SMA_20") then float_cell (SMA_20 r)
  else if decide (c = "EMA_10") then float_cell (EMA_10 r)
  else if decide (c = "EMA_20") then float_cell (EMA_20 r)
  else NaN.

(** A written file: its header line and its records. *)
Record Csv : Type := mkCsv {
  header : list string;
  records : list (list cell)
}.

(** The content [to_csv] gives a file: with [index=True] the row labels
    go into a first column with an empty name. *)
Definition csv_of (df : DataFrame Date) (index : bool) : Csv :=
  mkCsv
    ((if index then [EmptyString] else []) ++ columns df)
    ((λ r, (if index then [Int (Z.of_nat (label r))] else [])
             ++ (cell_of r <$> columns df)) <$> rows df).

(** [os.path.join(a, b)] for a relative [b]. *)
Definition path_join (a b : string) : string :=
  match a with
  | EmptyString => b
  | _ => if decide (last (list_ascii_of_string a) = Some "/"%char)
         then a +:+ b else a +:+ "/" +:+ b
  end.

Section Writer.
(** The paths at which the run can create a file: opening any other path
    for writing raises [OSError] (the directory of the path does not
    exist, or the file or the directory is not writable). *)
Variable can_write : string → bool.

(** [df.to_csv(path, index=index)]: the file is opened, then written. *)
Definition to_csv (df : DataFrame Date) (path : string) (index : bool)
  : result Csv :=
  if can_write path then Ok (csv_of df index) else Err (IOError path).

(** The loop of [save_by_ticker] over the tickers: the files written, in
    the order they are written, and how the loop ends.  The first file
    that cannot be written ends it; the files written before stay. *)
Fixpoint save_loop (df : DataFrame Date) (output_folder : string)
    (tickers : list string) : list (string * Csv) * result unit :=
  match tickers with
  | [] => ([], Ok tt)
  | symbol :: tickers' =>
      let ticker_df :=
        mkFrame (columns df) (filter (λ r, ticker r = symbol) (rows df)) in
      let file_name := "result_" +:+ symbol +:+ ".csv" in
      let file_path := path_join output_folder file_name in
      match to_csv ticker_df file_path false with
      | Err e => ([], Err e)
      | Ok file =>
          let '(out, end_) := save_loop df output_folder tickers' in
          ((file_path, file) :: out, end_)
      end
  end.

Definition save_by_ticker (df : DataFrame Date) (output_folder : string)
  : list (string * Csv) * result unit :=
  match require df ["ticker"] with
  | Err e => ([], Err e)
  | Ok _ => save_loop df output_folder (unique (ticker <$> rows df))
  end.
End Writer.

(** The output folder after the files are written one after the other: a
    later file replaces an earlier one of the same name. *)
Definition write_files (folder : gmap string Csv) (out : list (string * Csv))
  : gmap string Csv :=
  foldl (λ fs f, <[f.1 := f.2]> fs) folder out.

(** ** The script *)

Inductive outcome : Type :=
  | Completed
  | Failed (e : error).

(** What a run leaves behind: the files written and the last log line. *)
Record Run : Type := mkRun {
  written : list (string * Csv);
  report : outcome
}.

(** The [try] block of the script: the first exception ends the run, and
    is logged; the files written before it stay.  The output folder
    exists by then ([os.makedirs]). *)
Definition main (parse_date : string → option datetime)
    (can_write : string → bool)
    (files : gmap string (DataFrame string)) : Run :=
  match
    raw_data ← load_and_prepare_data parse_date files INPUT_FILE;
    monthly_data ← aggregate_to_monthly_na raw_data;
    add_technical_indicators monthly_data
  with
  | Err e => mkRun [] (Failed e)
  | Ok final_data =>
      match save_by_ticker can_write final_data OUTPUT_DIR with
      | (out, Ok _) => mkRun out Completed
      | (out, Err e) => mkRun out (Failed e)
      end
  end.

(** ** [add_technical_indicators] on the object store

    In Python a table is an object and a parameter is a reference to it.
    The statements of [add_technical_indicators] are run here on a store of
    table objects, to see which objects they touch. *)

Definition Stmt (A : Type) : Type :=
  gmap nat (DataFrame Date) → gmap nat (DataFrame Date) * result A.

Global Instance Stmt_ret : MRet Stmt := fun A a h => (h, Ok a).

Global Instance Stmt_bind : MBind Stmt := fun A B k m h =>
  match m h with
  | (h', Ok a) => k a h'
  | (h', Err e) => (h', Err e)
  end.

(** The table a reference names. *)
Definition deref (l : nat) : Stmt (DataFrame Date) :=
  fun h => (h, Ok (default (mkFrame [] []) (h !! l))).

(** A new table object. *)
Definition new (d : DataFrame Date) : Stmt nat :=
  fun h => let l := fresh (dom h) in (<[l := d]> h, Ok l).

(** [df[name] = series] on the object [l]. *)
Definition assign (l : nat) (name : string) (series : list (option Qc))
  : Stmt unit :=
  fun h => (alter (setitem name series) l h, Ok tt).

Definition raise_or {A : Type} (r : result A) : Stmt A := fun h => (h, r).

Definition add_technical_indicators_obj (df : nat) : Stmt nat :=
  d ← deref df;
  sorted ← raise_or (sort_values row_leb d);
  df ← new sorted;
  d ← deref df;
  _ ← raise_or (require d ["ticker"]);
  _ ← raise_or (require d ["close"]);
  let group := groupby_close (rows d) in
  _ ← assign df "SMA_10" (transform (rolling_mean 10) group);
  _ ← assign df "SMA_20" (transform (rolling_mean 20) group);
  _ ← assign df "EMA_10" (transform (ewm_mean 10) group);
  _ ← assign df "EMA_20" (transform (ewm_mean 20) group);
  mret df.

(** ** A date reader and a file system for the examples *)

Definition digit (c : ascii) : option Z :=
  let n := Z.of_N (N_of_ascii c) in
  if ((48 <=? n) && (n <=? 57))%Z then Some (n - 48)%Z else None.

Definition number (cs : list ascii) : option Z :=
  foldl (λ acc c, a ← acc; d ← digit c; Some (10 * a + d)%Z) (Some 0%Z) cs.

(** The texts [read_csv] takes for a missing cell by default, and the
    texts [pd.to_datetime] takes for NaT. *)
Definition na_values : list string :=
  [EmptyString; "#N/A"; "#N/A N/A"; "#NA"; "-1.#IND"; "-1.#QNAN"; "-NaN";
   "-nan"; "1.#IND"; "1.#QNAN"; "<NA>"; "N/A"; "NA"; "NULL"; "NaN"; "None";
   "n/a"; "nan"; "null"].

Definition nat_strings : list string :=
  ["NaT"; "nat"; "NAT"; "nan"; "NaN"; "NAN"].

(** Dates written [YYYY-MM-DD]. *)
Definition iso_date (s : string) : option datetime :=
  if decide (s ∈ na_values ++ nat_strings) then Some NaT
  else
    match list_ascii_of_string s with
    | [y1; y2; y3; y4; s1; m1; m2; s2; d1; d2] =>
        if decide (s1 = "-"%char ∧ s2 = "-"%char) then
          y ← number [y1; y2; y3; y4];
          m ← number [m1; m2];
          d ← number [d1; d2];
          if ((1 <=? m) && (m <=? 12) && (1 <=? d)
              && (d <=? days_in_month y m))%Z
          then Some (Timestamp (mkDate y m d)) else None
        else None
    | _ => None
    end.

(** The directory of a path: what stands before its last [/]. *)
Fixpoint dirname_chars (cs : list ascii) : option (list ascii) :=
  match cs with
  | [] => None
  | c :: cs' =>
      match dirname_chars cs' with
      | Some d => Some (c :: d)
      | None => if decide (c = "/"%char) then Some [] else None
      end
  end.

Definition dirname (path : string) : string :=
  string_of_list_ascii (default [] (dirname_chars (list_ascii_of_string path))).

(** A file system in which the directories [dirs] exist and are writable:
    a file can be created in them and nowhere else. *)
Definition created_in (dirs : list string) (path : string) : bool :=
  bool_decide (dirname path ∈ dirs).

(** ** Sample tables *)

Definition price (n : Z) : Qc := Q2Qc (inject_Z n).

Definition daily (t d : string) (o h l c v : Z) : Row string :=
  mkRow 0 t d (price o) (price h) (price l) (price c) v None None None None.

(** The columns the input file is expected to have. *)
Definition required_columns : list string :=
  ["ticker"; "date"; "open"; "high"; "low"; "close"; "volume"].

Definition sample_rows : list (Row string) :=
  reset_index
    [daily "B" "2020-01-03" 1 5 0 2 10;
     daily "A" "2020-02-03" 3 9 2 4 20;
     daily "A" "2020-01-15" 5 6 4 5 30;
     daily "A" "2020-01-02" 7 8 1 3 40].

Definition sample : DataFrame string := mkFrame required_columns sample_rows.

Definition sample_no_volume : DataFrame string :=
  mkFrame ["ticker"; "date"; "open"; "high"; "low"; "close"] sample_rows.


(** The row of a file whose date cell is empty. *)
Definition undated_row : Row string := daily "A" EmptyString 9 9 9 9 90.

(** The sample with that row among the others. *)
Definition sample_undated : DataFrame string :=
  mkFrame required_columns
    (reset_index
       [daily "B" "2020-01-03" 1 5 0 2 10;
        daily "A" "2020-02-03" 3 9 2 4 20;
        undated_row;
        daily "A" "2020-01-15" 5 6 4 5 30;
        daily "A" "2020-01-02" 7 8 1 3 40]).

Definition sample_undated_dates : list datetime :=
  [Timestamp (mkDate 2020 1 3); Timestamp (mkDate 2020 2 3); NaT;
   Timestamp (mkDate 2020 1 15); Timestamp (mkDate 2020 1 2)].

(** A file with the two tickers [A] and [A/B]. *)
Definition sample_slash : DataFrame string :=
  mkFrame required_columns
    (reset_index
       [daily "A/B" "2020-01-03" 1 5 0 2 10;
        daily "A" "2020-01-02" 7 8 1 3 40]).

(** The file system of a run: the output folder exists. *)
Definition output_folder_only : string → bool := created_in [OUTPUT_DIR].

Definition monthly_bar (t : string) (d : Date) (o h l c v : Z) : Row Date :=
  mkRow 0 t d (price o) (price h) (price l) (price c) v None None None None.

(** One ticker with a single row in its month. *)
Definition lone_row : Row Date := monthly_bar "A" (mkDate 2020 1 15) 1 4 0 2 10.

Definition lone : DataFrame Date := mkFrame required_columns [lone_row].

(** Two days of one month, in date order and swapped. *)
Definition day1 : Row Date := monthly_bar "A" (mkDate 2020 1 1) 3 6 2 4 10.
Definition day2 : Row Date := monthly_bar "A" (mkDate 2020 1 2) 5 8 1 7 20.

Definition two_days : DataFrame Date := mkFrame required_columns [day1; day2].

Definition two_days_swapped : DataFrame Date :=
  mkFrame required_columns [day2; day1].

(** Monthly tables of two runs: the rows of ticker A are the same, the
    rows of the other tickers differ. *)
Definition monthly_columns : list string :=
  "ticker" :: "date" :: (fst <$> agg_dict).

Definition rows_A : list (Row Date) :=
  [monthly_bar "A" (mkDate 2020 2 29) 3 9 2 4 20;
   monthly_bar "A" (mkDate 2020 1 31) 7 8 1 5 70;
   monthly_bar "A" (mkDate 2020 3 31) 4 6 3 6 15].

Definition monthly_1 : DataFrame Date :=
  mkFrame monthly_columns
    (reset_index (monthly_bar "B" (mkDate 2020 1 31) 1 5 0 2 10 :: rows_A)).

Definition monthly_2 : DataFrame Date :=
  mkFrame monthly_columns
    (reset_index
       (rows_A ++ [monthly_bar "C" (mkDate 2020 1 31) 9 9 9 9 90;
                   monthly_bar "B" (mkDate 2020 1 31) 8 8 8 8 80])).

(** The month-end date of the [i]-th month from January 2020 on. *)
Definition nth_month (i : nat) : Date :=
  month_end (mkDate (2020 + Z.of_nat i / 12) (Z.of_nat i mod 12 + 1) 1).

(** The monthly rows of a ticker whose closes are [closes], month after
    month. *)
Definition months (t : string) (closes : list Z) : list (Row Date) :=
  imap (λ i c, monthly_bar t (nth_month i) c c c c 1) closes.

(** A monthly table with thirteen months of ticker A, closes 1, 2, ...,
    13, after one month of ticker B. *)
Definition monthly_13 : DataFrame Date :=
  mkFrame monthly_columns
    (reset_index
       (monthly_bar "B" (mkDate 2020 1 31) 1 5 0 2 10
          :: months "A" [1; 2; 3; 4; 5; 6; 7; 8; 9; 10; 11; 12; 13]%Z)).

(** Two months with closes 1 and 2. *)
Definition monthly_1_2 : DataFrame Date :=
  mkFrame monthly_columns (reset_index (months "A" [1; 2]%Z)).



(** The monthly table of [two_days]. *)
Definition two_days_monthly : DataFrame Date :=
  mkFrame monthly_columns
    [mkRow 0 "A" (mkDate 2020 1 31) (price 3) (price 8) (price 1) (price 7)
       30 None None None None].

(** Thirteen months of closes 1, 2, ..., 13. *)
Definition closes_1_13 : list Qc :=
  price <$> [1; 2; 3; 4; 5; 6; 7; 8; 9; 10; 11; 12; 13]%Z.

(** The tables of the run on [sample]: what the loader returns, the rows
    it groups, and the monthly and enriched tables. *)
Definition value_or {A : Type} (d : A) (r : result A) : A :=
  match r with Ok a => a | Err _ => d end.

Definition sample_loaded : DataFrame datetime :=
  value_or (mkFrame [] [])
    (load_and_prepare_data iso_date {[INPUT_FILE := sample]} INPUT_FILE).

Definition sample_normalized : DataFrame Date :=
  value_or (mkFrame [] []) (groupby_month sample_loaded).

Definition sample_monthly : DataFrame Date :=
  value_or (mkFrame [] []) (aggregate_to_monthly sample_normalized).

Definition sample_final : DataFrame Date :=
  value_or (mkFrame [] []) (add_technical_indicators sample_monthly).

(** The enriched table of [monthly_1]. *)
Definition enriched_1 : DataFrame Date :=
  value_or monthly_1 (add_technical_indicators monthly_1).

(** Twelve months of ticker A with the same close, after one month of
    ticker B. *)
Definition monthly_flat : DataFrame Date :=
  mkFrame monthly_columns
    (reset_index
       (monthly_bar "B" (mkDate 2020 1 31) 1 5 0 2 10
          :: months "A" [3; 3; 3; 3; 3; 3; 3; 3; 3; 3; 3; 3]%Z)).

(** The enriched table of [monthly_flat]. *)
Definition enriched_flat : DataFrame Date :=
  value_or monthly_flat (add_technical_indicators monthly_flat).

(** The table the loader makes of [sample_undated]. *)
Definition sample_undated_loaded : DataFrame datetime :=
  value_or (mkFrame [] [])
    (load_and_prepare_data iso_date {[INPUT_FILE := sample_undated]}
       INPUT_FILE).

(** ** Notions used to state the properties *)

Definition Zsum (l : list Z) : Z := foldr Z.add 0%Z l.

Definition add_column (cols : list string) (name : string) : list string :=
  if decide (name ∈ cols) then cols else cols ++ [name].



(** A row whose low is not above its open and close, and whose high is not
    below them. *)
Definition ohlc_consistent (r : Row Date) : Prop :=
  (low r <= open r)%Qc ∧ (open r <= high r)%Qc
  ∧ (low r <= close r)%Qc ∧ (close r <= high r)%Qc.

(** The row with its four indicator cells blank. *)
Definition clear_indicators (r : Row Date) : Row Date :=
  mkRow (label r) (ticker r) (date r) (open r) (high r) (low r) (close r)
    (volume r) None None None None.

(** The month grouper has a date to start from: the table has no rows, or
    one of its dates is not NaT. *)
Definition some_date (ds : list datetime) : Prop :=
  ds = [] ∨ Exists (λ d, d ≠ NaT) ds.

Global Instance some_date_dec (ds : list datetime) : Decision (some_date ds).
Proof. unfold some_date. apply _. Defined.

(** A close that is a whole number of absolute value at most [bound]. *)
Definition whole (bound : Z) (q : Qc) : Prop :=
  Qden q = 1%positive ∧ (Z.abs (Qnum q) <= bound)%Z.

Global Instance whole_dec (bound : Z) (q : Qc) : Decision (whole bound q).
Proof. unfold whole. apply _. Defined.



(** The smoothing factor of the spec, [2 / (k + 1)], as a float64. *)
Definition alpha64 (k : Z) : Qc := round64 (Qc_of_Z 2 / Qc_of_Z (k + 1)).

(** One step of the recursion in float64 arithmetic: the previous value
    [e] is kept when the close [c] equals it; else the two are weighted by
    [1 - alpha] and [alpha], and divided by the sum of the weights, every
    operation rounded. *)
Definition ema_step (alpha e c : Qc) : Qc :=
  if Qc_eq_bool e c then e
  else fdiv (fadd (fmul (fsub 1 alpha) e) (fmul alpha c))
            (fadd (fsub 1 alpha) alpha).

(** The recursion of the spec in exact arithmetic. *)
Definition ema_exact (alpha e c : Qc) : Qc := (alpha * c + (1 - alpha) * e)%Qc.

(** The series the recursion [step] gives from the closes [c], seeded with
    the first close. *)
Fixpoint ema_from (step : Qc → Qc → Qc) (prev : Qc) (c : list Qc) : list Qc :=
  match c with
  | [] => []
  | ci :: c' => let e := step prev ci in e :: ema_from step e c'
  end.

Definition ema (step : Qc → Qc → Qc) (c : list Qc) : list Qc :=
  match c with
  | [] => []
  | c0 :: c' => c0 :: ema_from step c0 c'
  end.

(** The row [r] with its four indicator cells read at position [j] of the
    series computed from the closes [c]. *)
Definition with_indicators (c : list Qc) (j : nat) (r : Row Date) : Row Date :=
  mkRow (label r) (ticker r) (date r) (open r) (high r) (low r) (close r)
    (volume r)
    (mjoin (rolling_mean 10 c !! j)) (mjoin (rolling_mean 20 c !! j))
    (mjoin (ewm_mean 10 c !! j)) (mjoin (ewm_mean 20 c !! j)).

(** The rows of one ticker, each with the indicators of its position in
    the ticker's own close series. *)
Definition enrich_group (g : list (Row Date)) : list (Row Date) :=
  imap (with_indicators (close <$> g)) g.

(** The recursion [step] read off a column [col] of the rows [g]: the
    first value is the first close, every later value is [step] of the
    previous value and the close of the row. *)
Definition ema_recurrence (step : Qc → Qc → Qc) (col : Row Date → option Qc)
    (g : list (Row Date)) : Prop :=
  ∀ i r, g !! i = Some r →
    match i with
    | 0 => col r = Some (close r)
    | S i' =>
        ∃ p e, g !! i' = Some p ∧ col p = Some e
               ∧ col r = Some (step e (close r))
    end.



(** The name of the file of a ticker. *)
Definition file_of (output_folder symbol : string) : string :=
  path_join output_folder ("result_" +:+ symbol +:+ ".csv").

(** The header of the enriched table of a run. *)
Definition enriched_columns : list string :=
  ["ticker"; "date"; "open"; "close"; "high"; "low"; "volume";
   "SMA_10"; "SMA_20"; "EMA_10"; "EMA_20"].

(** The record of a row of the enriched table, cell by cell. *)
Definition record_of (r : Row Date) : list cell :=
  [Text (ticker r); Stamp (date r); Float (open r); Float (close r);
   Float (high r); Float (low r); Int (volume r);
   float_cell (SMA_10 r); float_cell (SMA_20 r);
   float_cell (EMA_10 r); float_cell (EMA_20 r)].

(** The file of a ticker: its name, and the records of the rows of the
    ticker in table order under the header of the table. *)
Definition file_for (df : DataFrame Date) (output_folder symbol : string)
  : string * Csv :=
  (file_of output_folder symbol,
   mkCsv enriched_columns
     (record_of <$> filter (λ r, ticker r = symbol) (rows df))).

(** * Properties *)

(** ** The order on keys *)

Lemma ascii_compare_refl (a : ascii) : Ascii.compare a a = Eq.
Proof. apply N.compare_refl. Qed.

Lemma ascii_compare_lt_trans (a b c : ascii) :
  Ascii.compare a b = Lt → Ascii.compare b c = Lt → Ascii.compare a c = Lt.
Proof.
  unfold Ascii.compare. rewrite !N.compare_lt_iff. apply N.lt_trans.
Qed.

Lemma string_compare_refl (s : string) : String.compare s s = Eq.
Proof.
  induction s as [|a s IH]; simpl; [done|].
  by rewrite ascii_compare_refl.
Qed.

Lemma string_compare_lt_trans (s1 s2 s3 : string) :
  String.compare s1 s2 = Lt → String.compare s2 s3 = Lt →
  String.compare s1 s3 = Lt.
Proof.
  revert s2 s3.
  induction s1 as [|a s1 IH]; intros [|b s2] [|c s3]; simpl; try done.
  destruct (Ascii.compare a b) eqn:Hab; try done;
    destruct (Ascii.compare b c) eqn:Hbc; try done; intros H12 H23.
  - apply Ascii.compare_eq_iff in Hab, Hbc. subst.
    rewrite ascii_compare_refl. eauto.
  - apply Ascii.compare_eq_iff in Hab. subst. by rewrite Hbc.
  - apply Ascii.compare_eq_iff in Hbc. subst. by rewrite Hab.
  - by rewrite (ascii_compare_lt_trans a b c).
Qed.

Lemma string_compare_gt (s1 s2 : string) :
  String.compare s1 s2 = Gt ↔ String.compare s2 s1 = Lt.
Proof.
  rewrite (String.compare_antisym s2 s1).
  destruct (String.compare s1 s2); simpl; split; congruence.
Qed.

Lemma string_compare_eq (s1 s2 : string) :
  String.compare s1 s2 = Eq ↔ s1 = s2.
Proof.
  split; [apply String.compare_eq_iff|].
  intros ->. apply string_compare_refl.
Qed.

Lemma date_leb_refl (a : Date) : date_leb a a = true.
Proof.
  unfold date_leb. rewrite !Z.eqb_refl, Z.leb_refl. simpl.
  by rewrite !orb_true_r.
Qed.

Lemma date_leb_spec (a b : Date) :
  date_leb a b = true ↔
  (year a < year b ∨
   (year a = year b ∧
    (month a < month b ∨ (month a = month b ∧ day a <= day b))))%Z.
Proof.
  unfold date_leb.
  rewrite !orb_true_iff, !andb_true_iff, !orb_true_iff, !andb_true_iff.
  rewrite !Z.ltb_lt, !Z.eqb_eq, Z.leb_le. tauto.
Qed.

Lemma date_leb_total (a b : Date) : date_leb a b = true ∨ date_leb b a = true.
Proof. rewrite !date_leb_spec. lia. Qed.

Lemma date_leb_trans (a b c : Date) :
  date_leb a b = true → date_leb b c = true → date_leb a c = true.
Proof. rewrite !date_leb_spec. lia. Qed.

Lemma date_leb_antisym (a b : Date) :
  date_leb a b = true → date_leb b a = true → a = b.
Proof.
  rewrite !date_leb_spec. destruct a, b; simpl. intros. f_equal; lia.
Qed.

Lemma key_leb_refl (a : string * Date) : key_leb a a = true.
Proof.
  unfold key_leb. rewrite string_compare_refl. apply date_leb_refl.
Qed.

Lemma key_leb_total (a b : string * Date) :
  key_leb a b = true ∨ key_leb b a = true.
Proof.
  unfold key_leb. destruct (String.compare a.1 b.1) eqn:Hab.
  - apply string_compare_eq in Hab. rewrite Hab, string_compare_refl.
    apply date_leb_total.
  - by left.
  - apply string_compare_gt in Hab. rewrite Hab. by right.
Qed.

Lemma key_leb_trans (a b c : string * Date) :
  key_leb a b = true → key_leb b c = true → key_leb a c = true.
Proof.
  unfold key_leb.
  destruct (String.compare a.1 b.1) eqn:Hab; try done;
    destruct (String.compare b.1 c.1) eqn:Hbc; try done.
  - apply string_compare_eq in Hab, Hbc. rewrite Hab, Hbc.
    rewrite string_compare_refl. apply date_leb_trans.
  - apply string_compare_eq in Hab. by rewrite Hab, Hbc.
  - apply string_compare_eq in Hbc. by rewrite <- Hbc, Hab.
  - by rewrite (string_compare_lt_trans _ _ _ Hab Hbc).
Qed.

Lemma key_leb_antisym (a b : string * Date) :
  key_leb a b = true → key_leb b a = true → a = b.
Proof.
  unfold key_leb. destruct a as [s d], b as [s' d']; simpl.
  destruct (String.compare s s') eqn:Hab.
  - apply string_compare_eq in Hab. subst. rewrite string_compare_refl.
    intros H1 H2. f_equal. by apply date_leb_antisym.
  - apply string_compare_gt in Hab. by rewrite Hab.
  - done.
Qed.


Lemma datetime_leb_total (a b : datetime) :
  datetime_leb a b = true ∨ datetime_leb b a = true.
Proof. destruct a, b; simpl; auto using date_leb_total. Qed.

Lemma datetime_leb_trans (a b c : datetime) :
  datetime_leb a b = true → datetime_leb b c = true → datetime_leb a c = true.
Proof. destruct a, b, c; simpl; try done. apply date_leb_trans. Qed.


Lemma key_leb_na_total (a b : string * datetime) :
  key_leb_na a b = true ∨ key_leb_na b a = true.
Proof.
  unfold key_leb_na. destruct (String.compare a.1 b.1) eqn:Hab.
  - apply string_compare_eq in Hab. rewrite Hab, string_compare_refl.
    apply datetime_leb_total.
  - by left.
  - apply string_compare_gt in Hab. rewrite Hab. by right.
Qed.

Lemma key_leb_na_trans (a b c : string * datetime) :
  key_leb_na a b = true → key_leb_na b c = true → key_leb_na a c = true.
Proof.
  unfold key_leb_na.
  destruct (String.compare a.1 b.1) eqn:Hab; try done;
    destruct (String.compare b.1 c.1) eqn:Hbc; try done.
  - apply string_compare_eq in Hab, Hbc. rewrite Hab, Hbc.
    rewrite string_compare_refl. apply datetime_leb_trans.
  - apply string_compare_eq in Hab. by rewrite Hab, Hbc.
  - apply string_compare_eq in Hbc. by rewrite <- Hbc, Hab.
  - by rewrite (string_compare_lt_trans _ _ _ Hab Hbc).
Qed.

(** ** Stable sorting *)

Section StableSortFacts.
Context {A : Type} (le : A → A → bool).
Hypothesis le_total : ∀ a b, le a b = true ∨ le b a = true.
Hypothesis le_trans : ∀ a b c, le a b = true → le b c = true → le a c = true.

Let leR (a b : A) : Prop := le a b = true.

Lemma insert_sorted_Permutation (x : A) (l : list A) :
  insert_sorted le x l ≡ₚ x :: l.
Proof.
  induction l as [|y l IH]; simpl; [done|].
  destruct (le x y); [done|].
  rewrite IH. apply Permutation_swap.
Qed.

Lemma stable_sort_Permutation (l : list A) : stable_sort le l ≡ₚ l.
Proof.
  induction l as [|x l IH]; simpl; [done|].
  by rewrite insert_sorted_Permutation, IH.
Qed.

Lemma insert_sorted_StronglySorted (x : A) (l : list A) :
  StronglySorted leR l → StronglySorted leR (insert_sorted le x l).
Proof.
  induction 1 as [|y l Hl IH Hy]; simpl.
  - repeat constructor.
  - destruct (le x y) eqn:Hxy.
    + constructor; [by constructor|].
      constructor; [done|].
      eapply Forall_impl; [exact Hy|]. intros z Hz. by eapply le_trans.
    + constructor; [done|].
      rewrite insert_sorted_Permutation. constructor; [|done].
      destruct (le_total x y); [congruence|done].
Qed.

Lemma stable_sort_StronglySorted (l : list A) :
  StronglySorted leR (stable_sort le l).
Proof.
  induction l as [|x l IH]; simpl; [constructor|].
  by apply insert_sorted_StronglySorted.
Qed.

(** A list that is already in order is left as it is. *)
Lemma stable_sort_sorted (l : list A) :
  StronglySorted leR l → stable_sort le l = l.
Proof.
  induction 1 as [|x l Hl IH Hx]; simpl; [done|].
  rewrite IH. destruct Hx as [|y l Hy _]; simpl; [done|].
  unfold leR in Hy. by rewrite Hy.
Qed.

Lemma filter_insert_sorted (P : A → Prop) `{∀ a, Decision (P a)}
    (x : A) (l : list A) :
  StronglySorted leR l →
  filter P (insert_sorted le x l)
  = if decide (P x) then insert_sorted le x (filter P l) else filter P l.
Proof.
  induction 1 as [|y l Hl IH Hy]; simpl.
  - rewrite filter_cons, filter_nil. by destruct (decide (P x)).
  - destruct (le x y) eqn:Hxy.
    + rewrite filter_cons.
      destruct (decide (P x)) as [Hx|Hx]; [|done].
      rewrite filter_cons. destruct (decide (P y)); simpl.
      * by rewrite Hxy.
      * assert (Forall (λ z, le x z = true) (filter P l)) as Hall.
        { apply Forall_forall. intros z Hz.
          apply list_elem_of_filter in Hz as [_ Hz].
          rewrite Forall_forall in Hy. eapply le_trans; [exact Hxy|].
          by apply Hy. }
        destruct Hall as [|z l' Hz _]; simpl; [done|]. by rewrite Hz.
    + rewrite !filter_cons, IH.
      destruct (decide (P y)), (decide (P x)); simpl; try done.
      by rewrite Hxy.
Qed.

(** Taking the rows that satisfy [P] commutes with sorting. *)
Lemma filter_stable_sort (P : A → Prop) `{∀ a, Decision (P a)} (l : list A) :
  filter P (stable_sort le l) = stable_sort le (filter P l).
Proof.
  induction l as [|x l IH]; simpl; [done|].
  rewrite filter_insert_sorted by apply stable_sort_StronglySorted.
  rewrite filter_cons. destruct (decide (P x)); simpl; by rewrite IH.
Qed.

End StableSortFacts.

(** ** The loader *)

Lemma require_Ok {D : Type} (df : DataFrame D) (names : list string) :
  Forall (λ c, c ∈ columns df) names → require df names = Ok tt.
Proof.
  intros Hall. unfold require.
  replace (filter (λ c, c ∉ columns df) names) with (@nil string); [done|].
  symmetry. induction Hall as [|c names Hc _ IH]; [done|].
  rewrite filter_cons. by destruct (decide (c ∉ columns df)).
Qed.

Lemma require_Err {D : Type} (df : DataFrame D) (names : list string) (e : error) :
  require df names = Err e →
  ∃ c, e = SchemaError [c] ∧ c ∈ names ∧ c ∉ columns df.
Proof.
  unfold require.
  destruct (filter (λ c, c ∉ columns df) names) as [|c l] eqn:Hf; [done|].
  intros [= <-]. exists c. split; [done|].
  assert (c ∈ filter (λ c, c ∉ columns df) names) as Hc
    by (rewrite Hf; by left).
  apply list_elem_of_filter in Hc. tauto.
Qed.

Lemma to_datetime_Ok (parse_date : string → option datetime)
    (col : list (Row string)) (ds : list datetime) :
  mapM parse_date (date <$> col) = Some ds →
  to_datetime parse_date col = Ok (zip_with set_date col ds).
Proof.
  rewrite mapM_Some, Forall2_fmap_l.
  induction 1 as [|r d col ds Hd _ IH]; simpl; [done|].
  by rewrite Hd, IH.
Qed.

Lemma to_datetime_Err (parse_date : string → option datetime)
    (col : list (Row string)) (r : Row string) :
  r ∈ col → parse_date (date r) = None →
  ∃ text, to_datetime parse_date col = Err (ParseError text)
          ∧ parse_date text = None.
Proof.
  induction col as [|r' col IH]; intros Hin Hr; [by apply elem_of_nil in Hin|].
  simpl. destruct (parse_date (date r')) as [d|] eqn:Hd.
  - apply elem_of_cons in Hin as [->|Hin]; [congruence|].
    destruct (IH Hin Hr) as (text & -> & Ht). by exists text.
  - by exists (date r').
Qed.

Lemma row_leb_total (a b : Row Date) : row_leb a b = true ∨ row_leb b a = true.
Proof. apply key_leb_total. Qed.

Lemma row_leb_na_total (a b : Row datetime) :
  row_leb_na a b = true ∨ row_leb_na b a = true.
Proof. apply key_leb_na_total. Qed.

Lemma row_leb_na_trans (a b c : Row datetime) :
  row_leb_na a b = true → row_leb_na b c = true → row_leb_na a c = true.
Proof. apply key_leb_na_trans. Qed.

Lemma row_leb_trans (a b c : Row Date) :
  row_leb a b = true → row_leb b c = true → row_leb a c = true.
Proof. apply key_leb_trans. Qed.



(** ** Distinct values and group keys *)

Lemma elem_of_unique {A : Type} `{!EqDecision A} (x : A) (l : list A) :
  x ∈ unique l ↔ x ∈ l.
Proof.
  induction l as [|y l IH]; simpl; [done|].
  rewrite !elem_of_cons, list_elem_of_filter, IH.
  destruct (decide (x = y)); tauto.
Qed.

Lemma NoDup_unique {A : Type} `{!EqDecision A} (l : list A) : NoDup (unique l).
Proof.
  induction l as [|y l IH]; simpl; constructor.
  - rewrite list_elem_of_filter. tauto.
  - by apply NoDup_filter.
Qed.

Lemma elem_of_group_keys (k : string * Date) (l : list (Row Date)) :
  k ∈ group_keys l ↔ ∃ r, r ∈ l ∧ bucket r = k.
Proof.
  unfold group_keys.
  rewrite (stable_sort_Permutation key_leb), elem_of_unique.
  rewrite list_elem_of_fmap. split; intros (r & H1 & H2); eauto.
Qed.

Lemma NoDup_group_keys (l : list (Row Date)) : NoDup (group_keys l).
Proof.
  unfold group_keys. rewrite (stable_sort_Permutation key_leb).
  apply NoDup_unique.
Qed.

Lemma group_keys_sorted (l : list (Row Date)) :
  StronglySorted (λ a b, key_leb a b = true) (group_keys l).
Proof.
  apply stable_sort_StronglySorted; [apply key_leb_total|apply key_leb_trans].
Qed.

(** ** One row per group *)

Lemma filter_none {A : Type} (P : A → Prop) `{!∀ a, Decision (P a)} (l : list A) :
  Forall (λ a, ¬ P a) l → filter P l = [].
Proof.
  induction 1 as [|a l Ha _ IH]; [done|].
  rewrite filter_cons. by destruct (decide (P a)).
Qed.

Lemma filter_all {A : Type} (P : A → Prop) `{!∀ a, Decision (P a)} (l : list A) :
  Forall P l → filter P l = l.
Proof.
  induction 1 as [|a l Ha _ IH]; [done|].
  rewrite filter_cons. destruct (decide (P a)); [|done]. by rewrite IH.
Qed.

Lemma agg_group_key (k : string * Date) (g : list (Row Date)) (m : Row Date) :
  m ∈ agg_group k g → sort_key m = k.
Proof.
  destruct g as [|r g]; simpl; [by intros ?%elem_of_nil|].
  intros ->%list_elem_of_singleton. by destruct k.
Qed.

Lemma filter_groups_other (l : list (Row Date))
    (ks : list (string * Date)) (k : string * Date) :
  k ∉ ks →
  filter (λ m, sort_key m = k)
    (ks ≫= λ k', agg_group k' (filter (λ r, bucket r = k') l)) = [].
Proof.
  intros Hk. induction ks as [|k' ks IH]; [done|].
  apply not_elem_of_cons in Hk as [Hne Hk].
  rewrite bind_cons, filter_app, IH by done.
  rewrite app_nil_r. apply filter_none, Forall_forall.
  intros m Hm%agg_group_key. congruence.
Qed.

Lemma filter_groups (l : list (Row Date))
    (ks : list (string * Date)) (k : string * Date) :
  NoDup ks → k ∈ ks →
  filter (λ m, sort_key m = k)
    (ks ≫= λ k', agg_group k' (filter (λ r, bucket r = k') l))
  = agg_group k (filter (λ r, bucket r = k) l).
Proof.
  intros Hnd Hk.
  induction Hnd as [|k' ks Hk' Hnd IH]; [by apply elem_of_nil in Hk|].
  rewrite bind_cons, filter_app.
  destruct (decide (k = k')) as [->|Hne].
  - rewrite filter_groups_other, app_nil_r by done.
    apply filter_all, Forall_forall. intros m Hm. by eapply agg_group_key.
  - apply elem_of_cons in Hk as [?|Hk]; [done|].
    rewrite IH by done.
    rewrite filter_none; [done|]. apply Forall_forall.
    intros m Hm%agg_group_key. congruence.
Qed.

Lemma filter_imap {A : Type} (P : A → Prop) `{!∀ a, Decision (P a)}
    (f : nat → A → A) (l : list A) :
  (∀ i a, P (f i a) ↔ P a) →
  Forall2 (λ a b, ∃ i, a = f i b) (filter P (imap f l)) (filter P l).
Proof.
  intros Hf. revert f Hf. induction l as [|a l IH]; intros f Hf; [constructor|].
  rewrite imap_cons, !filter_cons.
  assert (Forall2 (λ a b, ∃ i, a = f i b)
            (filter P (imap (f ∘ S) l)) (filter P l)) as Htl.
  { eapply Forall2_impl; [apply IH; intros; apply Hf|].
    intros x y [i ->]. by exists (S i). }
  destruct (decide (P a)) as [H2|H2].
  - rewrite decide_True by (by apply Hf). constructor; [by exists 0|done].
  - rewrite decide_False by (by rewrite Hf). done.
Qed.

Lemma aggregate_Ok (df : DataFrame Date) :
  "ticker" ∈ columns df → "date" ∈ columns df →
  Forall (λ c, c ∈ columns df) (fst <$> agg_dict) →
  aggregate_to_monthly df
  = Ok (mkFrame ("ticker" :: "date" :: (fst <$> agg_dict))
          (reset_index
             (group_keys (rows df) ≫= λ k,
                agg_group k (filter (λ r, bucket r = k) (rows df))))).
Proof.
  intros Ht Hd Hall. unfold aggregate_to_monthly.
  rewrite require_Ok by (by repeat constructor).
  cbn [mbind result_bind].
  rewrite filter_none; [done|].
  eapply Forall_impl; [exact Hall|]. intros c Hc Hn. by apply Hn.
Qed.

(** The monthly row of a group, up to its index label. *)
Lemma aggregate_group (df : DataFrame Date) (k : string * Date)
    (r : Row Date) (g : list (Row Date)) :
  "ticker" ∈ columns df → "date" ∈ columns df →
  Forall (λ c, c ∈ columns df) (fst <$> agg_dict) →
  filter (λ x, bucket x = k) (rows df) = r :: g →
  ∃ out i,
    aggregate_to_monthly df = Ok out
    ∧ filter (λ m, sort_key m = k) (rows out)
      = [mkRow i k.1 k.2
           (open r) (foldl Qc_max (high r) (high <$> g))
           (foldl Qc_min (low r) (low <$> g)) (close (List.last g r))
           (foldl add64 0%Z (volume <$> r :: g)) None None None None].
Proof.
  intros Ht Hd Hall Hg.
  eexists. rewrite aggregate_Ok by done.
  assert (k ∈ group_keys (rows df)) as Hk.
  { apply elem_of_group_keys. exists r.
    assert (r ∈ filter (λ x, bucket x = k) (rows df)) as Hr
      by (rewrite Hg; by left).
    apply list_elem_of_filter in Hr. tauto. }
  pose proof (filter_imap (λ m, sort_key m = k) set_label
                (group_keys (rows df) ≫= λ k,
                   agg_group k (filter (λ r, bucket r = k) (rows df)))) as Him.
  rewrite filter_groups in Him by (done || apply NoDup_group_keys).
  rewrite Hg in Him. simpl in Him.
  specialize (Him (λ _ _, reflexivity _)).
  apply Forall2_cons_inv_r in Him as (m & l' & (i & ->) & ->%Forall2_nil_inv_r & Heq).
  exists i. split; [done|]. simpl. unfold reset_index. by rewrite Heq.
Qed.

(** ** Reductions of a group *)

Lemma wrap64_id (z : Z) : in_int64 z → wrap64 z = z.
Proof.
  unfold in_int64, wrap64. intros Hz.
  rewrite Z.mod_small by lia. lia.
Qed.

Lemma wrap64_add_l (a b : Z) : wrap64 (wrap64 a + b) = wrap64 (a + b).
Proof.
  unfold wrap64. f_equal.
  replace ((a + 2 ^ 63) `mod` 2 ^ 64 - 2 ^ 63 + b + 2 ^ 63)%Z
    with ((a + 2 ^ 63) `mod` 2 ^ 64 + b)%Z by lia.
  rewrite Zplus_mod_idemp_l. f_equal. lia.
Qed.

Lemma foldl_add64 (z : Z) (l : list Z) :
  foldl add64 (wrap64 z) l = wrap64 (z + Zsum l).
Proof.
  revert z. induction l as [|v l IH]; intros z; simpl.
  - by rewrite Z.add_0_r.
  - unfold add64 at 2. rewrite wrap64_add_l, IH. f_equal. lia.
Qed.

Lemma Zsum_Permutation (l l' : list Z) : l ≡ₚ l' → Zsum l = Zsum l'.
Proof.
  induction 1 as [|x l l' _ IH|x y l|l l' l'' _ IH1 _ IH2]; simpl;
    [done|by rewrite IH|lia|congruence].
Qed.

(** The int64 sum of a column does not depend on the order of the rows. *)
Lemma sum64_Permutation (l l' : list Z) :
  l ≡ₚ l' → foldl add64 0%Z l = foldl add64 0%Z l'.
Proof.
  intros Hp.
  rewrite (foldl_add64 0 l : foldl add64 0%Z l = _).
  rewrite (foldl_add64 0 l' : foldl add64 0%Z l' = _).
  by rewrite (Zsum_Permutation l l').
Qed.

Lemma Qc_max_cases (a b : Qc) :
  (Qc_max a b = a ∨ Qc_max a b = b)
  ∧ (a <= Qc_max a b)%Qc ∧ (b <= Qc_max a b)%Qc.
Proof.
  unfold Qc_max. destruct (b ?= a)%Qc eqn:Hc.
  - apply Qceq_alt in Hc as ->. repeat split; auto using Qcle_refl.
  - apply Qclt_alt in Hc.
    repeat split; auto using Qcle_refl, Qclt_le_weak.
  - apply Qcgt_alt in Hc.
    repeat split; auto using Qcle_refl, Qclt_le_weak.
Qed.

Lemma Qc_min_cases (a b : Qc) :
  (Qc_min a b = a ∨ Qc_min a b = b)
  ∧ (Qc_min a b <= a)%Qc ∧ (Qc_min a b <= b)%Qc.
Proof.
  unfold Qc_min. destruct (b ?= a)%Qc eqn:Hc.
  - apply Qceq_alt in Hc as ->. repeat split; auto using Qcle_refl.
  - apply Qclt_alt in Hc.
    repeat split; auto using Qcle_refl, Qclt_le_weak.
  - apply Qcgt_alt in Hc.
    repeat split; auto using Qcle_refl, Qclt_le_weak.
Qed.

(** The running maximum ends on an element of the column that bounds all
    of them. *)
Lemma foldl_Qc_max_spec (x : Qc) (l : list Qc) :
  foldl Qc_max x l ∈ x :: l
  ∧ Forall (λ y, (y <= foldl Qc_max x l)%Qc) (x :: l).
Proof.
  revert x. induction l as [|y l IH]; intros x; simpl.
  - split; [by left|]. repeat constructor. apply Qcle_refl.
  - destruct (IH (Qc_max x y)) as [Hin Hall].
    destruct (Qc_max_cases x y) as (Hcase & Hx & Hy).
    apply Forall_cons in Hall as [Hm Hall].
    split.
    + apply elem_of_cons in Hin as [Hin|Hin].
      * rewrite Hin. destruct Hcase as [->| ->]; [by left|right; by left].
      * right. by right.
    + repeat constructor; [by eapply Qcle_trans|by eapply Qcle_trans|done].
Qed.

Lemma foldl_Qc_min_spec (x : Qc) (l : list Qc) :
  foldl Qc_min x l ∈ x :: l
  ∧ Forall (λ y, (foldl Qc_min x l <= y)%Qc) (x :: l).
Proof.
  revert x. induction l as [|y l IH]; intros x; simpl.
  - split; [by left|]. repeat constructor. apply Qcle_refl.
  - destruct (IH (Qc_min x y)) as [Hin Hall].
    destruct (Qc_min_cases x y) as (Hcase & Hx & Hy).
    apply Forall_cons in Hall as [Hm Hall].
    split.
    + apply elem_of_cons in Hin as [Hin|Hin].
      * rewrite Hin. destruct Hcase as [->| ->]; [by left|right; by left].
      * right. by right.
    + repeat constructor; [by eapply Qcle_trans|by eapply Qcle_trans|done].
Qed.

Lemma foldl_Qc_max_Permutation (x y : Qc) (l l' : list Qc) :
  x :: l ≡ₚ y :: l' → foldl Qc_max x l = foldl Qc_max y l'.
Proof.
  intros Hp.
  destruct (foldl_Qc_max_spec x l) as [Hin Hall].
  destruct (foldl_Qc_max_spec y l') as [Hin' Hall'].
  rewrite Forall_forall in Hall, Hall'.
  apply Qcle_antisym.
  - apply Hall'. by rewrite <- Hp.
  - apply Hall. by rewrite Hp.
Qed.

Lemma foldl_Qc_min_Permutation (x y : Qc) (l l' : list Qc) :
  x :: l ≡ₚ y :: l' → foldl Qc_min x l = foldl Qc_min y l'.
Proof.
  intros Hp.
  destruct (foldl_Qc_min_spec x l) as [Hin Hall].
  destruct (foldl_Qc_min_spec y l') as [Hin' Hall'].
  rewrite Forall_forall in Hall, Hall'.
  apply Qcle_antisym.
  - apply Hall. by rewrite Hp.
  - apply Hall'. by rewrite <- Hp.
Qed.

(** ** Chronological first and last *)

Lemma StronglySorted_filter {A : Type} (R : relation A) (P : A → Prop)
    `{!∀ a, Decision (P a)} (l : list A) :
  StronglySorted R l → StronglySorted R (filter P l).
Proof.
  induction 1 as [|x l Hl IH Hx]; [constructor|].
  rewrite filter_cons. destruct (decide (P x)); [|done].
  constructor; [done|].
  apply Forall_forall. intros y [_ Hy]%list_elem_of_filter.
  rewrite Forall_forall in Hx. by apply Hx.
Qed.

Lemma last_cons_default {A : Type} (x y : A) (l : list A) :
  List.last (y :: l) x = List.last l y.
Proof.
  revert x y. induction l as [|a l IH]; intros x y; [done|].
  change (List.last (y :: a :: l) x) with (List.last (a :: l) x).
  by rewrite (IH x a), (IH y a).
Qed.

Lemma last_elem_of {A : Type} (x : A) (l : list A) : List.last l x ∈ x :: l.
Proof.
  revert x. induction l as [|y l IH]; intros x; [by left|].
  right. rewrite last_cons_default. apply IH.
Qed.

Lemma StronglySorted_last {A : Type} (R : relation A) (x : A) (l : list A) :
  (∀ a, R a a) → StronglySorted R (x :: l) →
  Forall (λ y, R y (List.last l x)) (x :: l).
Proof.
  intros Hrefl. revert x. induction l as [|y l IH]; intros x Hs.
  - repeat constructor. apply Hrefl.
  - apply StronglySorted_inv in Hs as [Hs Hx].
    rewrite last_cons_default.
    constructor; [|by apply IH].
    rewrite Forall_forall in Hx. apply Hx, last_elem_of.
Qed.

Lemma row_leb_same_ticker (a b : Row Date) :
  ticker a = ticker b → row_leb a b = date_leb (date a) (date b).
Proof.
  intros Ht. unfold row_leb, key_leb, sort_key. simpl.
  by rewrite Ht, string_compare_refl.
Qed.

(** In a table sorted by (ticker, date), the first row of a group has its
    earliest date and the last row its latest. *)
Lemma group_chronological (l : list (Row Date)) (k : string * Date)
    (r : Row Date) (g : list (Row Date)) :
  StronglySorted (λ a b, row_leb a b = true) l →
  filter (λ x, bucket x = k) l = r :: g →
  Forall (λ x, date_leb (date r) (date x) = true
               ∧ date_leb (date x) (date (List.last g r)) = true) (r :: g).
Proof.
  intros Hs Hg.
  apply (StronglySorted_filter _ (λ x, bucket x = k)) in Hs.
  rewrite Hg in Hs.
  assert (Forall (λ x, ticker x = k.1) (r :: g)) as Ht.
  { rewrite <- Hg. apply Forall_forall.
    intros x [<- _]%list_elem_of_filter. done. }
  pose proof (StronglySorted_last _ r g
                (λ a, key_leb_refl (sort_key a)) Hs) as Hlast.
  apply StronglySorted_inv in Hs as [_ Hfirst].
  rewrite Forall_forall in Ht, Hlast, Hfirst. apply Forall_forall.
  intros x Hx. split.
  - apply elem_of_cons in Hx as [->|Hx]; [apply date_leb_refl|].
    rewrite <- row_leb_same_ticker; [by apply Hfirst|].
    rewrite !Ht; [done|by right|by left].
  - rewrite <- row_leb_same_ticker; [by apply Hlast|].
    rewrite !Ht; [done|apply last_elem_of|done].
Qed.

(** ** The monthly aggregation *)

Lemma required_columns_inv {D : Type} (df : DataFrame D) :
  Forall (λ c, c ∈ columns df) required_columns →
  "ticker" ∈ columns df ∧ "date" ∈ columns df
  ∧ Forall (λ c, c ∈ columns df) (fst <$> agg_dict).
Proof.
  unfold required_columns. rewrite !Forall_cons.
  intros (Ht & Hd & Ho & Hh & Hl & Hc & Hv & _).
  split; [done|]. split; [done|]. by repeat constructor.
Qed.

(** C1, as the code has it: a group of exactly one row gives a monthly row
    with that row's own open, high, low, close and volume. *)
Theorem single_row_group (df : DataFrame Date) (r : Row Date) :
  Forall (λ c, c ∈ columns df) required_columns →
  in_int64 (volume r) →
  filter (λ x, bucket x = bucket r) (rows df) = [r] →
  ∃ out i,
    aggregate_to_monthly df = Ok out
    ∧ filter (λ m, sort_key m = bucket r) (rows out)
      = [mkRow i (ticker r) (month_end (date r))
           (open r) (high r) (low r) (close r) (volume r)
           None None None None].
Proof.
  intros (Ht & Hd & Hall)%required_columns_inv Hv Hg.
  destruct (aggregate_group df (bucket r) r [] Ht Hd Hall Hg)
    as (out & i & Hout & Hrow).
  exists out, i. split; [done|]. rewrite Hrow. simpl.
  unfold add64. by rewrite Z.add_0_l, wrap64_id.
Qed.

Lemma single_row_group_witness :
  ∃ out i,
    aggregate_to_monthly lone = Ok out
    ∧ filter (λ m, sort_key m = bucket lone_row) (rows out)
      = [mkRow i "A" (mkDate 2020 1 31)
           (price 1) (price 4) (price 0) (price 2) 10 None None None None].
Proof.
  apply (single_row_group lone lone_row).
  - apply (bool_decide_unpack _). vm_compute. exact I.
  - unfold in_int64. simpl. lia.
  - reflexivity.
Defined.

(** C1 as stated fails: the open of the monthly row is the row's open, not
    its close. *)
Lemma single_row_open_is_not_close :
  ∃ out m,
    filter (λ x, bucket x = bucket lone_row) (rows lone) = [lone_row]
    ∧ aggregate_to_monthly lone = Ok out
    ∧ rows out = [m]
    ∧ open m ≠ close lone_row.
Proof.
  eexists. eexists. split; [reflexivity|].
  split; [vm_compute; reflexivity|].
  split; [reflexivity|].
  intros H. apply (f_equal this) in H. vm_compute in H. discriminate.
Qed.

(** C9, as the code has it: for two tables with the same rows in any
    order, the monthly row of a group has the same high, low and volume;
    its open is the open of the first row of the group and its close the
    close of the last row of the group, in the order the rows are presented.
    When the table is sorted by (ticker, date), as the loader leaves it,
    these are the rows with the earliest and the latest date. *)
Theorem aggregate_order_independence
    (df df' : DataFrame Date) (k : string * Date)
    (r r' : Row Date) (g g' : list (Row Date)) :
  Forall (λ c, c ∈ columns df) required_columns →
  Forall (λ c, c ∈ columns df') required_columns →
  rows df ≡ₚ rows df' →
  filter (λ x, bucket x = k) (rows df) = r :: g →
  filter (λ x, bucket x = k) (rows df') = r' :: g' →
  ∃ out out' m m',
    aggregate_to_monthly df = Ok out
    ∧ aggregate_to_monthly df' = Ok out'
    ∧ filter (λ x, sort_key x = k) (rows out) = [m]
    ∧ filter (λ x, sort_key x = k) (rows out') = [m']
    ∧ high m = high m' ∧ low m = low m' ∧ volume m = volume m'
    ∧ open m = open r ∧ close m = close (List.last g r)
    ∧ open m' = open r' ∧ close m' = close (List.last g' r')
    ∧ (StronglySorted (λ a b, row_leb a b = true) (rows df) →
       Forall (λ x, date_leb (date r) (date x) = true
                    ∧ date_leb (date x) (date (List.last g r)) = true)
         (r :: g)).
Proof.
  intros (Ht & Hd & Hall)%required_columns_inv
         (Ht' & Hd' & Hall')%required_columns_inv Hp Hg Hg'.
  destruct (aggregate_group df k r g Ht Hd Hall Hg)
    as (out & i & Hout & Hrow).
  destruct (aggregate_group df' k r' g' Ht' Hd' Hall' Hg')
    as (out' & i' & Hout' & Hrow').
  assert (r :: g ≡ₚ r' :: g') as Hpg.
  { rewrite <- Hg, <- Hg'. by apply filter_Permutation. }
  exists out, out'. eexists. eexists.
  split; [done|]. split; [done|].
  split; [exact Hrow|]. split; [exact Hrow'|]. simpl.
  split; [|split; [|split]].
  - apply foldl_Qc_max_Permutation.
    change (high <$> r :: g ≡ₚ high <$> r' :: g'). by rewrite Hpg.
  - apply foldl_Qc_min_Permutation.
    change (low <$> r :: g ≡ₚ low <$> r' :: g'). by rewrite Hpg.
  - change (foldl add64 0%Z (volume <$> r :: g)
            = foldl add64 0%Z (volume <$> r' :: g')).
    apply sum64_Permutation. by rewrite Hpg.
  - repeat (split; [done|]).
    intros Hs. by apply (group_chronological (rows df) k).
Qed.

Lemma aggregate_order_independence_witness :
  ∃ out out' m m',
    aggregate_to_monthly two_days = Ok out
    ∧ aggregate_to_monthly two_days_swapped = Ok out'
    ∧ filter (λ x, sort_key x = bucket day1) (rows out) = [m]
    ∧ filter (λ x, sort_key x = bucket day1) (rows out') = [m']
    ∧ high m = high m' ∧ low m = low m' ∧ volume m = volume m'
    ∧ open m = open day1 ∧ close m = close day2
    ∧ open m' = open day2 ∧ close m' = close day1
    ∧ (StronglySorted (λ a b, row_leb a b = true) (rows two_days) →
       Forall (λ x, date_leb (date day1) (date x) = true
                    ∧ date_leb (date x) (date day2) = true)
         [day1; day2]).
Proof.
  apply (aggregate_order_independence two_days two_days_swapped
           (bucket day1) day1 day2 [day2] [day1]).
  - apply (bool_decide_unpack _). vm_compute. exact I.
  - apply (bool_decide_unpack _). vm_compute. exact I.
  - simpl. apply Permutation_swap.
  - reflexivity.
  - reflexivity.
Defined.

(** C9 as stated fails: with the two rows of the group swapped, the open
    and the close of the monthly row follow the presented order. *)
Lemma open_close_follow_presented_order :
  ∃ out out' m m',
    StronglySorted (λ a b, row_leb a b = true) (rows two_days)
    ∧ rows two_days_swapped ≡ₚ rows two_days
    ∧ aggregate_to_monthly two_days = Ok out
    ∧ aggregate_to_monthly two_days_swapped = Ok out'
    ∧ rows out = [m] ∧ rows out' = [m']
    ∧ open m' = open day2 ∧ close m' = close day1
    ∧ open m' ≠ open m ∧ close m' ≠ close m.
Proof.
  eexists. eexists. eexists. eexists.
  split; [repeat constructor|].
  split; [apply Permutation_swap|].
  split; [vm_compute; reflexivity|].
  split; [vm_compute; reflexivity|].
  split; [reflexivity|]. split; [reflexivity|].
  split; [reflexivity|]. split; [reflexivity|].
  split; intros H; apply (f_equal this) in H; vm_compute in H; discriminate.
Qed.

(** ** The header of the written files *)

Lemma aggregate_columns (df out : DataFrame Date) :
  aggregate_to_monthly df = Ok out →
  columns out = ["ticker"; "date"; "open"; "close"; "high"; "low"; "volume"].
Proof.
  unfold aggregate_to_monthly.
  destruct (require df ["ticker"; "date"]) as [[]|e]; [|done].
  cbn [mbind result_bind].
  destruct (filter _ _); [|done]. by intros [= <-].
Qed.

Lemma indicators_columns (df out : DataFrame Date) :
  add_technical_indicators df = Ok out →
  columns out
  = foldl add_column (columns df) ["SMA_10"; "SMA_20"; "EMA_10"; "EMA_20"].
Proof.
  unfold add_technical_indicators, sort_values.
  destruct (require df ["ticker"; "date"]) as [[]|e]; [|done].
  cbn [mbind result_bind].
  destruct (require _ ["ticker"]) as [[]|e]; [|done].
  cbn [mbind result_bind].
  destruct (require _ ["close"]) as [[]|e]; [|done].
  cbn [mbind result_bind]. by intros [= <-].
Qed.

Lemma aggregate_na_columns (df : DataFrame datetime) (out : DataFrame Date) :
  aggregate_to_monthly_na df = Ok out →
  columns out = ["ticker"; "date"; "open"; "close"; "high"; "low"; "volume"].
Proof.
  unfold aggregate_to_monthly_na.
  destruct (groupby_month df) as [dated|e]; [|done].
  apply aggregate_columns.
Qed.

Lemma save_loop_headers (can_write : string → bool) (df : DataFrame Date)
    (output_folder : string) (tickers : list string) :
  Forall (λ f, header f.2 = columns df
               ∧ Forall (λ rec, length rec = length (columns df)) (records f.2))
    (save_loop can_write df output_folder tickers).1.
Proof.
  induction tickers as [|symbol tickers IH]; simpl; [constructor|].
  unfold to_csv. destruct (can_write _); [|constructor].
  destruct (save_loop can_write df output_folder tickers) as [out r].
  simpl in *. constructor; [|done]. simpl. split; [done|].
  apply Forall_fmap, Forall_forall. intros r0 _. simpl.
  by rewrite length_fmap.
Qed.

Lemma save_headers (can_write : string → bool) (df : DataFrame Date)
    (output_folder : string) :
  Forall (λ f, header f.2 = columns df
               ∧ Forall (λ rec, length rec = length (columns df)) (records f.2))
    (save_by_ticker can_write df output_folder).1.
Proof.
  unfold save_by_ticker.
  destruct (require df ["ticker"]) as [[]|e]; [|constructor].
  apply save_loop_headers.
Qed.

(** C4, as the code has it: after a completed run every written file has
    the header ticker, date, open, close, high, low, volume, SMA_10,
    SMA_20, EMA_10, EMA_20 (the aggregated columns in the order of the
    aggregation dictionary), and every record has these eleven cells and
    no index cell. *)
Theorem written_header
    (parse_date : string → option datetime) (can_write : string → bool)
    (files : gmap string (DataFrame string)) (out : list (string * Csv)) :
  main parse_date can_write files = mkRun out Completed →
  Forall (λ f,
            header f.2
            = ["ticker"; "date"; "open"; "close"; "high"; "low"; "volume";
               "SMA_10"; "SMA_20"; "EMA_10"; "EMA_20"]
            ∧ Forall (λ rec, length rec = 11) (records f.2))
    out.
Proof.
  unfold main.
  destruct (load_and_prepare_data parse_date files INPUT_FILE)
    as [raw|e]; [|done].
  cbn [mbind result_bind].
  destruct (aggregate_to_monthly_na raw) as [monthly|e] eqn:Hagg; [|done].
  cbn [mbind result_bind].
  destruct (add_technical_indicators monthly) as [final|e] eqn:Hind; [|done].
  pose proof (save_headers can_write final OUTPUT_DIR) as Hsave.
  destruct (save_by_ticker can_write final OUTPUT_DIR) as [out' [[]|e]];
    [|done].
  intros [= <-]. cbn [fst] in Hsave.
  apply indicators_columns in Hind.
  rewrite (aggregate_na_columns _ _ Hagg) in Hind.
  eapply Forall_impl; [exact Hsave|].
  intros f [Hh Hrec]. rewrite Hind in Hh, Hrec. done.
Qed.

Lemma written_header_witness :
  Forall (λ f,
            header f.2
            = ["ticker"; "date"; "open"; "close"; "high"; "low"; "volume";
               "SMA_10"; "SMA_20"; "EMA_10"; "EMA_20"]
            ∧ Forall (λ rec, length rec = 11) (records f.2))
    (written (main iso_date output_folder_only {[INPUT_FILE := sample]})).
Proof.
  apply (written_header iso_date output_folder_only {[INPUT_FILE := sample]}).
  vm_compute. reflexivity.
Defined.

(** C4 as stated fails: in the written header [close] comes before [high]
    and [low]. *)
Lemma written_header_is_not_ohlc :
  ∃ path file,
    report (main iso_date output_folder_only {[INPUT_FILE := sample]})
    = Completed
    ∧ (path, file)
      ∈ written (main iso_date output_folder_only {[INPUT_FILE := sample]})
    ∧ header file
      ≠ ["ticker"; "date"; "open"; "high"; "low"; "close"; "volume";
         "SMA_10"; "SMA_20"; "EMA_10"; "EMA_20"].
Proof.
  eexists. eexists. split; [vm_compute; reflexivity|].
  split.
  - apply list_elem_of_lookup. exists 0. vm_compute. reflexivity.
  - vm_compute. discriminate.
Qed.

(** ** float64 arithmetic on whole numbers *)























Section Exact.
Variable window : nat.
Variable B : Z.
Hypothesis Hw : (2 <= window)%nat.
Hypothesis HB : ((Z.of_nat window + 1) * B < 2 ^ 53)%Z.
























End Exact.

(** ** The rolling mean *)










(** ** The exponentially weighted mean *)

Lemma ewm_alpha_10 : ewm_alpha 10 = alpha64 10.
Proof. apply Qc_is_canon. vm_compute. reflexivity. Qed.

Lemma ewm_alpha_20 : ewm_alpha 20 = alpha64 20.
Proof. apply Qc_is_canon. vm_compute. reflexivity. Qed.

(** Scaling the old weight 1 by [1 - alpha] leaves [1 - alpha]. *)
Lemma old_wt_10 : fmul 1 (fsub 1 (alpha64 10)) = fsub 1 (alpha64 10).
Proof. apply Qc_is_canon. vm_compute. reflexivity. Qed.

Lemma old_wt_20 : fmul 1 (fsub 1 (alpha64 20)) = fsub 1 (alpha64 20).
Proof. apply Qc_is_canon. vm_compute. reflexivity. Qed.

(** The values of the two smoothing factors. *)
Example alpha64_values :
  this (alpha64 10) = (3275345183542179 # 18014398509481984)%Q
  ∧ this (alpha64 20) = (857828500451523 # 9007199254740992)%Q.
Proof. split; vm_compute; reflexivity. Qed.

(** Without the rounding, one step of the loop is one step of the
    recursion of the spec. *)
Lemma ema_step_unrounded (alpha e c : Qc) :
  (if Qc_eq_bool e c then e
   else ((1 - alpha) * e + alpha * c) / ((1 - alpha) + alpha))%Qc
  = ema_exact alpha e c.
Proof.
  unfold ema_exact.
  assert ((1 - alpha + alpha)%Qc = 1%Qc) as -> by ring.
  destruct (Qc_eq_bool e c) eqn:Heq.
  - apply Qc_eq_bool_correct in Heq as ->. ring.
  - field. apply Q_apart_0_1.
Qed.

Lemma ewm_loop_ema (alpha weighted : Qc) (nobs : nat) (todo : list Qc) :
  (0 < nobs)%nat → fmul 1 (fsub 1 alpha) = fsub 1 alpha →
  ewm_loop alpha 1 weighted nobs todo
  = Some <$> ema_from (ema_step alpha) weighted todo.
Proof.
  intros Hn Hwt. revert weighted nobs Hn.
  induction todo as [|cur todo IH]; intros weighted nobs Hn; [done|].
  cbn [ewm_loop ema_from fmap list_fmap].
  rewrite Hwt, IH by lia. done.
Qed.

Lemma ewm_mean_ema (span : Z) (c : list Qc) :
  fmul 1 (fsub 1 (ewm_alpha span)) = fsub 1 (ewm_alpha span) →
  ewm_mean span c = Some <$> ema (ema_step (ewm_alpha span)) c.
Proof.
  intros Hwt. destruct c as [|c0 c]; [done|].
  unfold ewm_mean, ema. cbn [fmap list_fmap Nat.leb].
  by rewrite ewm_loop_ema by (lia || done).
Qed.

Lemma ema_from_lookup_0 (step : Qc → Qc → Qc) (prev ci : Qc) (c : list Qc) :
  c !! 0 = Some ci → ema_from step prev c !! 0 = Some (step prev ci).
Proof. destruct c; [done|]. by intros [= ->]. Qed.

Lemma ema_from_lookup_S (step : Qc → Qc → Qc) (prev ci : Qc) (c : list Qc)
    (i : nat) :
  c !! S i = Some ci →
  ∃ e, ema_from step prev c !! i = Some e
       ∧ ema_from step prev c !! S i = Some (step e ci).
Proof.
  revert prev i. induction c as [|c0 c IH]; intros prev i Hi; [done|].
  destruct i as [|i]; simpl in *.
  - eexists. split; [done|]. by apply ema_from_lookup_0.
  - by apply IH.
Qed.

Lemma ema_lookup_0 (step : Qc → Qc → Qc) (c : list Qc) :
  ema step c !! 0 = c !! 0.
Proof. by destruct c. Qed.

Lemma ema_lookup_S (step : Qc → Qc → Qc) (ci : Qc) (c : list Qc) (i : nat) :
  c !! S i = Some ci →
  ∃ e, ema step c !! i = Some e ∧ ema step c !! S i = Some (step e ci).
Proof.
  destruct c as [|c0 c]; [done|]. simpl. intros Hi.
  destruct i as [|i]; simpl.
  - eexists. split; [done|]. by apply ema_from_lookup_0.
  - by apply ema_from_lookup_S.
Qed.

(** The thirteen-month example: SMA_10 is NaN for nine months and 5.5 at
    month 10; EMA_10 starts at 1, and at month 2 it is the float64
    1.1818181818181817, not 13/11. *)
Example sma_10_of_1_to_13 :
  (λ v : option Qc, this <$> v) <$> rolling_mean 10 closes_1_13
  = replicate 9 None
    ++ [Some (11 # 2); Some (13 # 2); Some (15 # 2); Some (17 # 2)].
Proof. vm_compute. reflexivity. Qed.

(** Ten values 2^53, 1, ..., 1: the running sum alone would lose every 1;
    the compensation of the additions recovers eight of the nine. *)
Example sma_10_compensated :
  (λ v : option Qc, this <$> v)
    <$> drop 9 (rolling_mean 10
                  (price <$> [9007199254740992; 1; 1; 1; 1; 1; 1; 1; 1; 1]%Z))
  = [Some (900719925474100 # 1)].
Proof. vm_compute. reflexivity. Qed.

Example ema_10_of_1_to_13 :
  (λ v : option Qc, this <$> v) <$> take 2 (ewm_mean 10 closes_1_13)
  = [Some (1 # 1); Some (665304490407005 # 562949953421312)].
Proof. vm_compute. reflexivity. Qed.

(** ** The grouped transform *)

Lemma filter_fmap {A B : Type} (P : B → Prop) `{!∀ b, Decision (P b)}
    (f : A → B) (l : list A) :
  filter P (f <$> l) = f <$> filter (λ a, P (f a)) l.
Proof.
  induction l as [|a l IH]; [done|].
  rewrite fmap_cons, !filter_cons, IH. by destruct (decide (P (f a))).
Qed.

Lemma zip_with_imap {A B C : Type} (g : A → B → C) (h : nat → A → B)
    (l : list A) :
  zip_with g l (imap h l) = imap (λ i a, g a (h i a)) l.
Proof.
  revert h. induction l as [|a l IH]; intros h; [done|].
  rewrite !imap_cons. simpl. by rewrite IH.
Qed.

Lemma zip_with_imap_imap {A B : Type} (g : A → B → A) (f : nat → A → A)
    (h : nat → A → B) (l : list A) :
  zip_with g (imap f l) (imap h l) = imap (λ i a, g (f i a) (h i a)) l.
Proof.
  revert f h. induction l as [|a l IH]; intros f h; [done|].
  rewrite !imap_cons. simpl. by rewrite IH.
Qed.

Lemma transform_rows (f : list Qc → list (option Qc)) (l : list (Row Date)) :
  transform f (groupby_close l)
  = imap (λ i r,
            mjoin (f (close <$> filter (λ x, ticker x = ticker r) l)
                     !! length (filter (λ x, ticker x = ticker r) (take i l))))
      l.
Proof.
  unfold transform, groupby_close. rewrite imap_fmap.
  apply imap_ext. intros i r _. simpl.
  rewrite <- fmap_take, !filter_fmap, <- list_fmap_compose, length_fmap.
  done.
Qed.

(** The rows the four assignments leave in the table [l]. *)
Lemma indicators_rows (l : list (Row Date)) :
  let group := groupby_close l in
  zip_with (set_cell "EMA_20")
    (zip_with (set_cell "EMA_10")
       (zip_with (set_cell "SMA_20")
          (zip_with (set_cell "SMA_10") l (transform (rolling_mean 10) group))
          (transform (rolling_mean 20) group))
       (transform (ewm_mean 10) group))
    (transform (ewm_mean 20) group)
  = imap (λ i r,
            with_indicators (close <$> filter (λ x, ticker x = ticker r) l)
              (length (filter (λ x, ticker x = ticker r) (take i l))) r)
      l.
Proof.
  intros group. unfold group. rewrite !transform_rows.
  rewrite zip_with_imap, !zip_with_imap_imap.
  apply imap_ext. intros i r _. done.
Qed.

Lemma filter_imap_count {A : Type} (P : A → Prop) `{!∀ a, Decision (P a)}
    (F G : nat → A → A) (l : list A) :
  (∀ i a, P (F i a) ↔ P a) →
  (∀ i a, l !! i = Some a → P a →
          F i a = G (length (filter P (take i l))) a) →
  filter P (imap F l) = imap G (filter P l).
Proof.
  intros HP. induction l as [|x l IH] using rev_ind; intros HF; [done|].
  rewrite imap_app, !filter_app, imap_app. f_equal.
  - apply IH. intros i a Hi Ha.
    rewrite (HF i a); [|by apply lookup_app_l_Some|done].
    rewrite take_app_le; [done|].
    apply lookup_lt_Some in Hi. lia.
  - simpl. rewrite !filter_cons, !filter_nil.
    destruct (decide (P x)) as [Hx|Hx].
    + rewrite decide_True by (by apply HP). simpl. f_equal.
      rewrite !Nat.add_0_r, (HF (length l) x); [|by apply list_lookup_middle|done].
      by rewrite take_app_length.
    + by rewrite decide_False by (by rewrite HP).
Qed.

(** The rows of ticker [T] after the four assignments. *)
Lemma filter_enriched (T : string) (l : list (Row Date)) :
  filter (λ x, ticker x = T)
    (imap (λ i r,
             with_indicators (close <$> filter (λ x, ticker x = ticker r) l)
               (length (filter (λ x, ticker x = ticker r) (take i l))) r)
       l)
  = enrich_group (filter (λ x, ticker x = T) l).
Proof.
  unfold enrich_group. apply filter_imap_count; [done|].
  intros i r _ ->. done.
Qed.

Lemma add_technical_indicators_Ok (df : DataFrame Date) :
  Forall (λ c, c ∈ columns df) ["ticker"; "date"; "close"] →
  ∃ out, add_technical_indicators df = Ok out.
Proof.
  intros Hc. rewrite Forall_forall in Hc.
  unfold add_technical_indicators, sort_values.
  rewrite require_Ok; [|repeat constructor; apply Hc; set_solver].
  cbn [mbind result_bind].
  rewrite !require_Ok; [|repeat constructor; apply Hc; set_solver..].
  cbn [mbind result_bind]. eauto.
Qed.

(** The rows of every ticker in the enriched table: the ticker's rows in
    (ticker, date) order, with indicators computed from their own closes. *)
Lemma indicators_by_ticker (df out : DataFrame Date) (T : string) :
  add_technical_indicators df = Ok out →
  filter (λ x, ticker x = T) (rows out)
  = enrich_group (stable_sort row_leb (filter (λ x, ticker x = T) (rows df))).
Proof.
  unfold add_technical_indicators, sort_values.
  destruct (require df ["ticker"; "date"]) as [[]|e]; [|done].
  cbn [mbind result_bind].
  destruct (require _ ["ticker"]) as [[]|e]; [|done].
  cbn [mbind result_bind].
  destruct (require _ ["close"]) as [[]|e]; [|done].
  cbn [mbind result_bind]. intros [= <-].
  cbn [rows setitem].
  rewrite (indicators_rows (stable_sort row_leb (rows df))).
  rewrite filter_enriched.
  by rewrite (filter_stable_sort row_leb row_leb_total row_leb_trans).
Qed.

(** ** The indicators of one ticker *)

Lemma enrich_group_lookup (g : list (Row Date)) (i : nat) (r : Row Date) :
  enrich_group g !! i = Some r →
  ∃ r0, g !! i = Some r0 ∧ r = with_indicators (close <$> g) i r0.
Proof.
  unfold enrich_group. rewrite list_lookup_imap.
  destruct (g !! i) as [r0|]; [|done]. intros [= <-]. eauto.
Qed.

Lemma close_enrich_group (g : list (Row Date)) :
  close <$> enrich_group g = close <$> g.
Proof.
  unfold enrich_group. rewrite fmap_imap.
  rewrite <- (imap_const close g). by apply imap_ext.
Qed.

Lemma enrich_group_ema (span : Z) (col : Row Date → option Qc)
    (g : list (Row Date)) :
  fmul 1 (fsub 1 (ewm_alpha span)) = fsub 1 (ewm_alpha span) →
  (∀ c j r, col (with_indicators c j r) = mjoin (ewm_mean span c !! j)) →
  ema_recurrence (ema_step (ewm_alpha span)) col (enrich_group g).
Proof.
  intros Hwt Hcol i r (r0 & Hr0 & ->)%enrich_group_lookup.
  assert ((close <$> g) !! i = Some (close r0)) as Hci
    by (by rewrite list_lookup_fmap, Hr0).
  destruct i as [|i].
  - rewrite Hcol, ewm_mean_ema, list_lookup_fmap, ema_lookup_0, Hci; done.
  - destruct (ema_lookup_S (ema_step (ewm_alpha span)) _ _ _ Hci)
      as (e & He & HeS).
    destruct (lookup_lt_is_Some_2 g i) as [p0 Hp0];
      [apply lookup_lt_Some in Hr0; lia|].
    exists (with_indicators (close <$> g) i p0), e.
    split; [|split].
    + unfold enrich_group. by rewrite list_lookup_imap, Hp0.
    + by rewrite Hcol, ewm_mean_ema, list_lookup_fmap, He.
    + by rewrite Hcol, ewm_mean_ema, list_lookup_fmap, HeS.
Qed.




(** C5, as the code has it: for every ticker, the EMA_10 and EMA_20 cells
    of its rows, taken in date order, start at the first close; every
    later cell is computed from the cell before it and the close of its
    row by the recursion in float64 arithmetic: the cell before when the
    close equals it, else [((1 - alpha) * EMA(i - 1) + alpha * c(i))
    / ((1 - alpha) + alpha)] with every operation rounded to the nearest
    float64, [alpha] being the float64 nearest to [2 / (k + 1)]; every
    cell holds a value.  Without the rounding this is the recursion of
    the spec ([ema_step_unrounded]). *)
Theorem ema_per_ticker (df : DataFrame Date) (T : string) :
  Forall (λ c, c ∈ columns df) ["ticker"; "date"; "close"] →
  ∃ out,
    add_technical_indicators df = Ok out
    ∧ let g := filter (λ x, ticker x = T) (rows out) in
      close <$> g
      = close <$> stable_sort row_leb (filter (λ x, ticker x = T) (rows df))
      ∧ ema_recurrence (ema_step (alpha64 10)) EMA_10 g
      ∧ ema_recurrence (ema_step (alpha64 20)) EMA_20 g
      ∧ Forall (λ r, is_Some (EMA_10 r) ∧ is_Some (EMA_20 r)) g.
Proof.
  intros Hc. destruct (add_technical_indicators_Ok df Hc) as [out Hout].
  exists out. split; [done|]. cbv zeta.
  rewrite (indicators_by_ticker df out T Hout).
  set (g := stable_sort row_leb (filter (λ x, ticker x = T) (rows df))).
  assert (ema_recurrence (ema_step (alpha64 10)) EMA_10 (enrich_group g))
    as H10.
  { rewrite <- ewm_alpha_10. apply enrich_group_ema; [|done].
    rewrite ewm_alpha_10. apply old_wt_10. }
  assert (ema_recurrence (ema_step (alpha64 20)) EMA_20 (enrich_group g))
    as H20.
  { rewrite <- ewm_alpha_20. apply enrich_group_ema; [|done].
    rewrite ewm_alpha_20. apply old_wt_20. }
  split; [apply close_enrich_group|].
  split; [exact H10|]. split; [exact H20|].
  apply Forall_forall. intros r Hr.
  apply list_elem_of_lookup in Hr as [i Hi].
  specialize (H10 i r Hi). specialize (H20 i r Hi).
  destruct i as [|i].
  - rewrite H10, H20. eauto.
  - destruct H10 as (? & ? & _ & _ & ->), H20 as (? & ? & _ & _ & ->). eauto.
Qed.

Lemma ema_per_ticker_witness :
  ∃ out,
    add_technical_indicators monthly_13 = Ok out
    ∧ let g := filter (λ x, ticker x = "A") (rows out) in
      close <$> g
      = close <$> stable_sort row_leb
                    (filter (λ x, ticker x = "A") (rows monthly_13))
      ∧ ema_recurrence (ema_step (alpha64 10)) EMA_10 g
      ∧ ema_recurrence (ema_step (alpha64 20)) EMA_20 g
      ∧ Forall (λ r, is_Some (EMA_10 r) ∧ is_Some (EMA_20 r)) g.
Proof.
  apply (ema_per_ticker monthly_13 "A").
  apply (bool_decide_unpack _). vm_compute. exact I.
Defined.

(** C5 as stated fails: with closes 1 and 2, the EMA_10 of the second
    month is the float64 665304490407005 / 2^49 (1.1818181818181817), not
    [(2/11) * 2 + (1 - 2/11) * 1 = 13/11]. *)
Lemma ema_differs_from_exact_recursion :
  ∃ out,
    add_technical_indicators monthly_1_2 = Ok out
    ∧ close <$> rows out = [price 1; price 2]
    ∧ (λ r, this <$> EMA_10 r) <$> rows out
      = [Some (1 # 1)%Q; Some (665304490407005 # 562949953421312)%Q]
    ∧ ema_exact (Q2Qc (2 # 11)) (price 1) (price 2) = Q2Qc (13 # 11)
    ∧ EMA_10 <$> rows out !! 1%nat
      ≠ Some (Some (ema_exact (Q2Qc (2 # 11)) (price 1) (price 2))).
Proof.
  eexists. split; [vm_compute; reflexivity|].
  split; [vm_compute; reflexivity|].
  split; [vm_compute; reflexivity|].
  split; [apply Qc_is_canon; vm_compute; reflexivity|].
  intros H. apply (f_equal (λ v, this <$> mjoin v)) in H.
  vm_compute in H. discriminate.
Qed.



(** The SMA_10 cells of ticker A in the enriched table of [monthly_13]:
    NaN for nine months, then the means 5.5, 6.5, 7.5 and 8.5. *)
Example sma_10_of_monthly_13 :
  (λ r, this <$> SMA_10 r)
    <$> filter (λ x, ticker x = "A")
          (rows (value_or (mkFrame [] []) (add_technical_indicators monthly_13)))
  = replicate 9 None
    ++ [Some (11 # 2)%Q; Some (13 # 2)%Q; Some (15 # 2)%Q; Some (17 # 2)%Q].
Proof. vm_compute. reflexivity. Qed.


Lemma insert_sorted_fmap {A B : Type} (le : A → A → bool) (le' : B → B → bool)
    (f : A → B) (x : A) (l : list A) :
  (∀ a b, le' (f a) (f b) = le a b) →
  insert_sorted le' (f x) (f <$> l) = f <$> insert_sorted le x l.
Proof.
  intros Hle. induction l as [|y l IH]; [done|].
  rewrite fmap_cons. cbn [insert_sorted]. rewrite Hle.
  destruct (le x y); [done|]. by rewrite fmap_cons, IH.
Qed.

Lemma stable_sort_fmap {A B : Type} (le : A → A → bool) (le' : B → B → bool)
    (f : A → B) (l : list A) :
  (∀ a b, le' (f a) (f b) = le a b) →
  stable_sort le' (f <$> l) = f <$> stable_sort le l.
Proof.
  intros Hle. induction l as [|x l IH]; [done|].
  rewrite fmap_cons. cbn [stable_sort foldr].
  fold (stable_sort le' (f <$> l)). fold (stable_sort le l).
  rewrite IH. by apply insert_sorted_fmap.
Qed.

Lemma enrich_group_unlabelled (g : list (Row Date)) :
  unlabelled (enrich_group g) = enrich_group (unlabelled g).
Proof.
  unfold unlabelled, enrich_group.
  rewrite fmap_imap, imap_fmap, <- list_fmap_compose.
  apply imap_ext. intros i r _. done.
Qed.

(** C7: two monthly tables with the same rows of ticker [T] (index labels
    aside) give the same rows of ticker [T] after enrichment, indicator
    cells included, whatever the rows of the other tickers are. *)
Theorem indicators_isolated (df1 df2 : DataFrame Date) (T : string) :
  Forall (λ c, c ∈ columns df1) ["ticker"; "date"; "close"] →
  Forall (λ c, c ∈ columns df2) ["ticker"; "date"; "close"] →
  unlabelled (filter (λ x, ticker x = T) (rows df1))
  = unlabelled (filter (λ x, ticker x = T) (rows df2)) →
  ∃ out1 out2,
    add_technical_indicators df1 = Ok out1
    ∧ add_technical_indicators df2 = Ok out2
    ∧ unlabelled (filter (λ x, ticker x = T) (rows out1))
      = unlabelled (filter (λ x, ticker x = T) (rows out2)).
Proof.
  intros Hc1 Hc2 Heq.
  destruct (add_technical_indicators_Ok df1 Hc1) as [out1 Hout1].
  destruct (add_technical_indicators_Ok df2 Hc2) as [out2 Hout2].
  exists out1, out2. split; [done|]. split; [done|].
  rewrite (indicators_by_ticker df1 out1 T Hout1).
  rewrite (indicators_by_ticker df2 out2 T Hout2).
  rewrite !enrich_group_unlabelled. unfold unlabelled in *.
  rewrite <- !(stable_sort_fmap row_leb row_leb (set_label 0)) by done.
  by rewrite Heq.
Qed.

Lemma indicators_isolated_witness :
  ∃ out1 out2,
    add_technical_indicators monthly_1 = Ok out1
    ∧ add_technical_indicators monthly_2 = Ok out2
    ∧ unlabelled (filter (λ x, ticker x = "A") (rows out1))
      = unlabelled (filter (λ x, ticker x = "A") (rows out2)).
Proof.
  apply (indicators_isolated monthly_1 monthly_2 "A").
  - apply (bool_decide_unpack _). vm_compute. exact I.
  - apply (bool_decide_unpack _). vm_compute. exact I.
  - reflexivity.
Defined.

(** ** The partition writer *)

Lemma string_length_append (a b : string) :
  String.length (a +:+ b) = (String.length a + String.length b)%nat.
Proof. induction a as [|x a IH]; simpl; [done|]. by rewrite IH. Qed.

Lemma append_inj_l (a b c : string) : a +:+ b = a +:+ c → b = c.
Proof. induction a as [|x a IH]; simpl; [done|]. intros [= H]. by apply IH. Qed.

Lemma append_inj_r (a b c : string) : b +:+ a = c +:+ a → b = c.
Proof.
  revert c. induction b as [|x b IH]; intros [|y c] H; simpl in H.
  - done.
  - apply (f_equal String.length) in H.
    rewrite !string_length_append in H. simpl in H. lia.
  - apply (f_equal String.length) in H.
    rewrite !string_length_append in H. simpl in H. lia.
  - change (String x (b +:+ a) = String y (c +:+ a)) in H.
    injection H as -> H. f_equal. by apply IH.
Qed.

Lemma append_assoc (a b c : string) : (a +:+ b) +:+ c = a +:+ (b +:+ c).
Proof.
  induction a as [|x a IH]; [done|].
  change (String x ((a +:+ b) +:+ c) = String x (a +:+ (b +:+ c))).
  by rewrite IH.
Qed.

Lemma path_join_prefix (a : string) : ∃ p, ∀ b, path_join a b = p +:+ b.
Proof.
  unfold path_join. destruct a as [|x a]; [by exists EmptyString|].
  destruct (decide _).
  - by exists (String x a).
  - exists (String x a +:+ "/"). intros b. by rewrite append_assoc.
Qed.

Global Instance file_of_inj (output_folder : string) :
  Inj eq eq (file_of output_folder).
Proof.
  intros s s'. unfold file_of.
  destruct (path_join_prefix output_folder) as [p Hp].
  rewrite !Hp. intros H%append_inj_l.
  by apply append_inj_l, append_inj_r in H.
Qed.

Lemma sum_list_indicator {A : Type} `{!EqDecision A} (x : A) (ks : list A) :
  NoDup ks →
  sum_list ((λ k, if decide (x = k) then 1 else 0)%nat <$> ks)
  = (if decide (x ∈ ks) then 1 else 0)%nat.
Proof.
  induction 1 as [|k ks Hk Hnd IH]; [done|].
  rewrite fmap_cons. simpl. rewrite IH.
  destruct (decide (x = k)) as [->|Hne].
  - rewrite decide_False by done. rewrite decide_True by (by left). done.
  - destruct (decide (x ∈ ks)).
    + rewrite decide_True by (by right). done.
    + rewrite decide_False; [done|]. by intros [?|?]%elem_of_cons.
Qed.

(** The groups of distinct keys that cover a list split it: their sizes
    add up to its length. *)
Lemma sum_list_groups {A K : Type} `{!EqDecision K} (key : A → K)
    (ks : list K) (l : list A) :
  NoDup ks → Forall (λ a, key a ∈ ks) l →
  sum_list ((λ k, length (filter (λ a, key a = k) l)) <$> ks) = length l.
Proof.
  intros Hnd. induction 1 as [|a l Ha _ IH]; simpl.
  - induction ks; [done|]. by inversion Hnd; subst; simpl; auto.
  - rewrite <- IH. clear IH.
    transitivity (sum_list ((λ k, if decide (key a = k) then 1 else 0)%nat <$> ks)
                  + sum_list ((λ k, length (filter (λ a, key a = k) l)) <$> ks))%nat.
    + clear Hnd Ha. induction ks as [|k ks IH]; [done|].
      rewrite !fmap_cons. simpl. rewrite IH, filter_cons.
      destruct (decide (key a = k)); simpl; lia.
    + rewrite sum_list_indicator by done. by rewrite decide_True.
Qed.

Lemma groups_keys (l : list (Row Date)) (ks : list (string * Date)) :
  Forall (λ k, ∃ r, r ∈ l ∧ bucket r = k) ks →
  sort_key <$> (ks ≫= λ k, agg_group k (filter (λ r, bucket r = k) l)) = ks.
Proof.
  induction 1 as [|k ks (r & Hr & Hk) _ IH]; [done|].
  rewrite bind_cons, fmap_app, IH. 
  assert (r ∈ filter (λ r, bucket r = k) l) as Hin
    by (by apply list_elem_of_filter).
  destruct (filter (λ r, bucket r = k) l) as [|r0 g];
    [by apply elem_of_nil in Hin|].
  simpl. by destruct k.
Qed.

Lemma sort_key_reset_index (l : list (Row Date)) :
  sort_key <$> reset_index l = sort_key <$> l.
Proof.
  unfold reset_index. rewrite fmap_imap.
  rewrite <- (imap_const sort_key l). by apply imap_ext.
Qed.

(** The monthly table has one row per (ticker, month) pair of its input,
    in ascending order of the pairs. *)
Lemma aggregate_keys (df out : DataFrame Date) :
  aggregate_to_monthly df = Ok out →
  sort_key <$> rows out = group_keys (rows df).
Proof.
  unfold aggregate_to_monthly.
  destruct (require df ["ticker"; "date"]) as [[]|e]; [|done].
  cbn [mbind result_bind].
  destruct (filter _ _); [|done]. intros [= <-]. cbn [rows].
  rewrite sort_key_reset_index. apply groups_keys.
  apply Forall_forall. intros k Hk. by apply elem_of_group_keys.
Qed.

Lemma indicators_keys (df out : DataFrame Date) :
  add_technical_indicators df = Ok out →
  sort_key <$> rows out ≡ₚ sort_key <$> rows df.
Proof.
  unfold add_technical_indicators, sort_values.
  destruct (require df ["ticker"; "date"]) as [[]|e]; [|done].
  cbn [mbind result_bind].
  destruct (require _ ["ticker"]) as [[]|e]; [|done].
  cbn [mbind result_bind].
  destruct (require _ ["close"]) as [[]|e]; [|done].
  cbn [mbind result_bind]. intros [= <-].
  cbn [rows setitem].
  rewrite (indicators_rows (stable_sort row_leb (rows df))).
  rewrite fmap_imap.
  rewrite (imap_ext _ (const sort_key)) by done.
  rewrite imap_const. by rewrite (stable_sort_Permutation row_leb).
Qed.

(** The enriched table of a run has one row per (ticker, month) pair of
    the normalized table. *)
Lemma pipeline_one_row_per_month (raw monthly final : DataFrame Date) :
  aggregate_to_monthly raw = Ok monthly →
  add_technical_indicators monthly = Ok final →
  NoDup (sort_key <$> rows final)
  ∧ length (rows final) = length (unique (bucket <$> rows raw)).
Proof.
  intros Hagg Hind.
  pose proof (indicators_keys _ _ Hind) as Hp.
  rewrite (aggregate_keys _ _ Hagg) in Hp. split.
  - rewrite Hp. apply NoDup_group_keys.
  - apply Permutation_length in Hp. rewrite length_fmap in Hp.
    rewrite Hp. unfold group_keys.
    apply Permutation_length, stable_sort_Permutation.
Qed.

Lemma write_files_other (folder : gmap string Csv) (out : list (string * Csv))
    (p : string) :
  p ∉ out.*1 → write_files folder out !! p = folder !! p.
Proof.
  revert folder. induction out as [|f out IH]; intros folder Hp; [done|].
  rewrite fmap_cons in Hp. apply not_elem_of_cons in Hp as [Hne Hp].
  unfold write_files. cbn [foldl]. fold (write_files (<[f.1:=f.2]> folder) out).
  rewrite IH by done. by rewrite lookup_insert_ne.
Qed.

Lemma write_files_lookup (folder : gmap string Csv) (out : list (string * Csv))
    (p : string) (file : Csv) :
  NoDup out.*1 → (p, file) ∈ out → write_files folder out !! p = Some file.
Proof.
  revert folder. induction out as [|f out IH]; intros folder Hnd Hin;
    [by apply elem_of_nil in Hin|].
  rewrite fmap_cons in Hnd. apply NoDup_cons in Hnd as [Hf Hnd].
  unfold write_files. cbn [foldl]. fold (write_files (<[f.1:=f.2]> folder) out).
  apply elem_of_cons in Hin as [<-|Hin].
  - rewrite write_files_other by done. apply lookup_insert_eq.
  - by apply IH.
Qed.

Lemma cell_of_enriched (r : Row Date) :
  cell_of r <$> enriched_columns = record_of r.
Proof. reflexivity. Qed.

(** The tables of a run have the eleven columns of the written header. *)
Lemma pipeline_columns (normalized monthly df : DataFrame Date) :
  aggregate_to_monthly normalized = Ok monthly →
  add_technical_indicators monthly = Ok df →
  columns df = enriched_columns.
Proof.
  intros Hagg Hind. apply indicators_columns in Hind.
  by rewrite (aggregate_columns _ _ Hagg) in Hind.
Qed.

Lemma save_loop_step (can_write : string → bool) (df : DataFrame Date)
    (output_folder symbol : string) (tickers : list string) :
  columns df = enriched_columns →
  save_loop can_write df output_folder (symbol :: tickers)
  = if can_write (file_of output_folder symbol)
    then (file_for df output_folder symbol
            :: (save_loop can_write df output_folder tickers).1,
          (save_loop can_write df output_folder tickers).2)
    else ([], Err (IOError (file_of output_folder symbol))).
Proof.
  intros Hcols. cbn [save_loop]. unfold to_csv. fold (file_of output_folder symbol).
  destruct (can_write (file_of output_folder symbol)); [|done].
  destruct (save_loop can_write df output_folder tickers) as [out r].
  unfold file_for, csv_of. cbn [columns rows app fst snd]. rewrite Hcols.
  by rewrite (list_fmap_ext (λ r0, cell_of r0 <$> enriched_columns) record_of
                _ (λ _ r0 _, cell_of_enriched r0)).
Qed.

(** When every file can be written, the loop writes the file of every
    ticker. *)
Lemma save_loop_Ok (can_write : string → bool) (df : DataFrame Date)
    (output_folder : string) (tickers : list string) :
  columns df = enriched_columns →
  Forall (λ s, can_write (file_of output_folder s) = true) tickers →
  save_loop can_write df output_folder tickers
  = (file_for df output_folder <$> tickers, Ok tt).
Proof.
  intros Hcols. induction 1 as [|symbol tickers Hs _ IH]; [done|].
  by rewrite save_loop_step, Hs, IH by done.
Qed.

(** The loop ends at the first file that cannot be written. *)
Lemma save_loop_Err (can_write : string → bool) (df : DataFrame Date)
    (output_folder : string) (done : list string) (bad : string)
    (rest : list string) :
  columns df = enriched_columns →
  Forall (λ s, can_write (file_of output_folder s) = true) done →
  can_write (file_of output_folder bad) = false →
  save_loop can_write df output_folder (done ++ bad :: rest)
  = (file_for df output_folder <$> done,
     Err (IOError (file_of output_folder bad))).
Proof.
  intros Hcols Hdone Hbad.
  induction Hdone as [|symbol done Hs _ IH]; cbn [app].
  - by rewrite save_loop_step, Hbad by done.
  - by rewrite save_loop_step, Hs, IH by done.
Qed.

Lemma save_by_ticker_loop (can_write : string → bool) (df : DataFrame Date)
    (output_folder : string) :
  columns df = enriched_columns →
  save_by_ticker can_write df output_folder
  = save_loop can_write df output_folder (unique (ticker <$> rows df)).
Proof.
  intros Hcols. unfold save_by_ticker.
  rewrite require_Ok; [done|].
  rewrite Hcols. repeat constructor.
Qed.

(** C8, as the code has it: for the enriched table of a run there is one
    file per distinct ticker, named [result_<TICKER>.csv] in the output
    folder with the symbol as it stands, the names pairwise distinct; the
    file of a ticker holds the records of exactly the rows of that ticker,
    in table order, each record listing the eleven cells of its row; the
    record counts of the files add up to the number of rows of the table,
    which is the number of distinct (ticker, month) pairs of the
    normalized table.  When every file can be written, the writer writes
    these files, in the order in which the tickers first appear, and none
    replaces another.  When the file of a ticker cannot be written, the
    writer stops there with an IOError: the files of the tickers before it
    stay, and no file is written for it or for the tickers after it. *)
Theorem one_file_per_ticker (can_write : string → bool)
    (normalized monthly df : DataFrame Date) (output_folder : string) :
  aggregate_to_monthly normalized = Ok monthly →
  add_technical_indicators monthly = Ok df →
  let tickers := unique (ticker <$> rows df) in
  NoDup tickers
  ∧ (∀ s, s ∈ tickers ↔ ∃ r, r ∈ rows df ∧ ticker r = s)
  ∧ NoDup (file_of output_folder <$> tickers)
  ∧ sum_list ((λ s, length (records (file_for df output_folder s).2))
                <$> tickers)
    = length (rows df)
  ∧ length (rows df) = length (unique (bucket <$> rows normalized))
  ∧ (Forall (λ s, can_write (file_of output_folder s) = true) tickers →
     save_by_ticker can_write df output_folder
     = (file_for df output_folder <$> tickers, Ok tt)
     ∧ ∀ folder s, s ∈ tickers →
         write_files folder (file_for df output_folder <$> tickers)
           !! file_of output_folder s
         = Some (file_for df output_folder s).2)
  ∧ (∀ done bad rest,
       tickers = done ++ bad :: rest →
       Forall (λ s, can_write (file_of output_folder s) = true) done →
       can_write (file_of output_folder bad) = false →
       save_by_ticker can_write df output_folder
       = (file_for df output_folder <$> done,
          Err (IOError (file_of output_folder bad)))).
Proof.
  intros Hagg Hind tickers.
  pose proof (pipeline_columns _ _ _ Hagg Hind) as Hcols.
  assert (NoDup (file_of output_folder <$> tickers)) as Hpaths
    by apply (NoDup_fmap_2 (file_of output_folder)), NoDup_unique.
  split; [apply NoDup_unique|].
  split.
  { intros s. unfold tickers. rewrite elem_of_unique, list_elem_of_fmap.
    split; intros (r & H1 & H2); eauto. }
  split; [done|].
  split.
  { rewrite <- (sum_list_groups ticker tickers (rows df)).
    - f_equal. apply list_fmap_ext. intros _ symbol _. simpl.
      by rewrite length_fmap.
    - apply NoDup_unique.
    - apply Forall_forall. intros r Hr.
      apply elem_of_unique, list_elem_of_fmap. eauto. }
  split; [by destruct (pipeline_one_row_per_month normalized monthly df Hagg Hind)|].
  split.
  - intros Hall. split.
    + rewrite save_by_ticker_loop by done. by apply save_loop_Ok.
    + intros folder s Hs. apply write_files_lookup.
      * by rewrite <- list_fmap_compose.
      * apply list_elem_of_fmap. by exists s.
  - intros done bad rest Heq Hdone Hbad.
    rewrite save_by_ticker_loop by done. fold tickers. rewrite Heq.
    by apply save_loop_Err.
Qed.

Lemma sample_normalized_monthly :
  aggregate_to_monthly sample_normalized = Ok sample_monthly.
Proof.
  unfold sample_monthly.
  destruct (aggregate_to_monthly sample_normalized) as [monthly|e] eqn:Hagg;
    [done|]. vm_compute in Hagg. discriminate.
Qed.

Lemma sample_monthly_final :
  add_technical_indicators sample_monthly = Ok sample_final.
Proof.
  unfold sample_final.
  destruct (add_technical_indicators sample_monthly) as [final|e] eqn:Hind;
    [done|]. vm_compute in Hind. discriminate.
Qed.

Lemma one_file_per_ticker_witness :
  unique (ticker <$> rows sample_final) = ["A"; "B"]
  ∧ length (rows sample_final) = 3%nat
  ∧ length (unique (bucket <$> rows sample_normalized)) = 3%nat
  ∧ save_by_ticker output_folder_only sample_final OUTPUT_DIR
    = (file_for sample_final OUTPUT_DIR <$> ["A"; "B"], Ok tt)
  ∧ (file_for sample_final OUTPUT_DIR <$> ["A"; "B"]).*1
    = ["output/result_A.csv"; "output/result_B.csv"]
  ∧ length ∘ records ∘ snd <$> (file_for sample_final OUTPUT_DIR <$> ["A"; "B"])
    = [2; 1]%nat.
Proof.
  assert (unique (ticker <$> rows sample_final) = ["A"; "B"]) as Htickers
    by (vm_compute; reflexivity).
  destruct (one_file_per_ticker output_folder_only
              sample_normalized sample_monthly sample_final OUTPUT_DIR
              sample_normalized_monthly sample_monthly_final)
    as (_ & _ & _ & _ & Hcount & Hsave & _).
  rewrite Htickers in Hsave.
  destruct Hsave as [Hsave _].
  { repeat constructor; vm_compute; reflexivity. }
  split; [exact Htickers|].
  split; [vm_compute; reflexivity|].
  split; [rewrite <- Hcount; vm_compute; reflexivity|].
  split; [exact Hsave|].
  split; vm_compute; reflexivity.
Defined.

(** C8 as stated fails: with the tickers [A] and [A/B] in a file system
    where only the output folder exists, the file of [A] is written, the
    file of [A/B] cannot be created, and the run fails with one file for
    two tickers. *)
Lemma writer_stops_at_unwritable_file :
  ∃ final,
    (raw_data ← load_and_prepare_data iso_date
                   {[INPUT_FILE := sample_slash]} INPUT_FILE;
     monthly_data ← aggregate_to_monthly_na raw_data;
     add_technical_indicators monthly_data) = Ok final
    ∧ unique (ticker <$> rows final) = ["A"; "A/B"]
    ∧ (save_by_ticker output_folder_only final OUTPUT_DIR).1.*1
      = ["output/result_A.csv"]
    ∧ (save_by_ticker output_folder_only final OUTPUT_DIR).2
      = Err (IOError "output/result_A/B.csv")
    ∧ (written (main iso_date output_folder_only
                  {[INPUT_FILE := sample_slash]})).*1
      = ["output/result_A.csv"]
    ∧ report (main iso_date output_folder_only {[INPUT_FILE := sample_slash]})
      = Failed (IOError "output/result_A/B.csv").
Proof.
  eexists. split; [vm_compute; reflexivity|].
  split; [vm_compute; reflexivity|].
  split; [vm_compute; reflexivity|].
  split; [vm_compute; reflexivity|].
  split; vm_compute; reflexivity.
Qed.

(** ** Errors *)

Lemma load_columns (parse_date : string → option datetime)
    (files : gmap string (DataFrame string)) (file_path : string)
    (df : DataFrame string) (out : DataFrame datetime) :
  files !! file_path = Some df →
  load_and_prepare_data parse_date files file_path = Ok out →
  columns out = columns df
  ∧ "date" ∈ columns df ∧ "ticker" ∈ columns df.
Proof.
  intros Hfile. unfold load_and_prepare_data, read_csv. rewrite Hfile. simpl.
  destruct (require df ["date"]) as [[]|e] eqn:Hreq; simpl; [|done].
  destruct (to_datetime parse_date (rows df)) as [parsed|e]; simpl; [|done].
  unfold sort_values.
  destruct (require _ ["ticker"; "date"]) as [[]|e] eqn:Hreq2; simpl; [|done].
  intros [= <-]. simpl. split; [done|].
  unfold require in Hreq, Hreq2. simpl in Hreq2.
  rewrite !filter_cons in Hreq, Hreq2.
  destruct (decide ("date" ∉ columns df)) as [|Hd]; [done|].
  destruct (decide ("ticker" ∉ columns df)) as [|Ht]; [done|].
  split; by apply dec_stable.
Qed.

Lemma load_Err_date_column (parse_date : string → option datetime)
    (files : gmap string (DataFrame string)) (file_path : string)
    (df : DataFrame string) :
  files !! file_path = Some df → "date" ∉ columns df →
  load_and_prepare_data parse_date files file_path = Err (SchemaError ["date"]).
Proof.
  intros Hfile Hd. unfold load_and_prepare_data, read_csv. rewrite Hfile. simpl.
  unfold require. rewrite filter_cons, filter_nil.
  by destruct (decide ("date" ∉ columns df)).
Qed.

Lemma load_Err_parse (parse_date : string → option datetime)
    (files : gmap string (DataFrame string)) (file_path : string)
    (df : DataFrame string) (r : Row string) :
  files !! file_path = Some df → "date" ∈ columns df →
  r ∈ rows df → parse_date (date r) = None →
  ∃ text, load_and_prepare_data parse_date files file_path
          = Err (ParseError text) ∧ parse_date text = None.
Proof.
  intros Hfile Hd Hr Hnone.
  unfold load_and_prepare_data, read_csv. rewrite Hfile. simpl.
  rewrite require_Ok by (by repeat constructor). simpl.
  destruct (to_datetime_Err parse_date _ r Hr Hnone) as (text & -> & Ht).
  by exists text.
Qed.

Lemma load_Err_ticker_column (parse_date : string → option datetime)
    (files : gmap string (DataFrame string)) (file_path : string)
    (df : DataFrame string) (ds : list datetime) :
  files !! file_path = Some df → "date" ∈ columns df →
  mapM parse_date (date <$> rows df) = Some ds →
  "ticker" ∉ columns df →
  load_and_prepare_data parse_date files file_path
  = Err (SchemaError ["ticker"]).
Proof.
  intros Hfile Hd Hds Ht.
  unfold load_and_prepare_data, read_csv. rewrite Hfile. simpl.
  rewrite require_Ok by (by repeat constructor). simpl.
  rewrite (to_datetime_Ok _ _ _ Hds). simpl.
  unfold sort_values, require. simpl. rewrite filter_cons.
  by destruct (decide ("ticker" ∉ columns df)).
Qed.

Lemma aggregate_Err_column (df : DataFrame Date) (c : string) :
  "ticker" ∈ columns df → "date" ∈ columns df →
  c ∈ (fst <$> agg_dict) → c ∉ columns df →
  ∃ missing, aggregate_to_monthly df = Err (SchemaError missing)
             ∧ c ∈ missing.
Proof.
  intros Ht Hd Hc Hmiss. unfold aggregate_to_monthly.
  rewrite require_Ok by (by repeat constructor).
  cbn [mbind result_bind].
  assert (c ∈ filter (λ c, c ∉ columns df) (fst <$> agg_dict)) as Hin
    by (by apply list_elem_of_filter).
  destruct (filter (λ c, c ∉ columns df) (fst <$> agg_dict)) as [|c' l];
    [by apply elem_of_nil in Hin|].
  by exists (c' :: l).
Qed.


Lemma load_Ok_rows
    (parse_date : string → option datetime)
    (files : gmap string (DataFrame string)) (file_path : string)
    (df : DataFrame string) (ds : list datetime) :
  files !! file_path = Some df →
  "ticker" ∈ columns df →
  "date" ∈ columns df →
  mapM parse_date (date <$> rows df) = Some ds →
  load_and_prepare_data parse_date files file_path
  = Ok (mkFrame (columns df)
          (stable_sort row_leb_na (zip_with set_date (rows df) ds))).
Proof.
  intros Hfile Ht Hd Hds.
  unfold load_and_prepare_data, read_csv. rewrite Hfile. simpl.
  rewrite require_Ok by (by repeat constructor). simpl.
  rewrite (to_datetime_Ok _ _ _ Hds). simpl.
  unfold sort_values.
  rewrite require_Ok by (by repeat constructor). done.
Qed.

Lemma elem_of_dated_rows (l : list (Row datetime)) (m : Row Date) :
  m ∈ dated_rows l ↔ ∃ r d, r ∈ l ∧ date r = Timestamp d ∧ m = set_date r d.
Proof.
  unfold dated_rows. rewrite list_elem_of_omap. split.
  - intros (r & Hr & Hm). destruct (date r) as [d|] eqn:Hd; [|done].
    injection Hm as <-. eauto.
  - intros (r & d & Hr & Hd & ->). exists r. by rewrite Hd.
Qed.

(** The month grouper keeps the rows that have a date; it raises when the
    table has rows and none has a date. *)
Lemma groupby_month_Ok (df : DataFrame datetime) :
  "ticker" ∈ columns df → "date" ∈ columns df →
  rows df = [] ∨ (∃ r d, r ∈ rows df ∧ date r = Timestamp d) →
  groupby_month df = Ok (mkFrame (columns df) (dated_rows (rows df))).
Proof.
  intros Ht Hd Hsome. unfold groupby_month.
  rewrite require_Ok by (by repeat constructor). cbn [mbind result_bind].
  destruct (rows df) as [|r0 l] eqn:Hrows; [done|].
  destruct (dated_rows (r0 :: l)) as [|m ms] eqn:Hdated; [|done].
  destruct Hsome as [?|(r & d & Hr & Hrd)]; [done|].
  assert (set_date r d ∈ dated_rows (r0 :: l)) as Hin
    by (apply elem_of_dated_rows; eauto).
  rewrite Hdated in Hin. by apply elem_of_nil in Hin.
Qed.

Lemma some_date_rows (l : list (Row string)) (ds : list datetime) :
  length l = length ds → some_date ds →
  stable_sort row_leb_na (zip_with set_date l ds) = []
  ∨ ∃ r d, r ∈ stable_sort row_leb_na (zip_with set_date l ds)
           ∧ date r = Timestamp d.
Proof.
  intros Hlen [->|Hex].
  - left. by rewrite zip_with_nil_r.
  - right. apply Exists_exists in Hex as (x & Hx & Hnat).
    destruct x as [d|]; [|done].
    apply list_elem_of_lookup in Hx as [i Hi].
    destruct (lookup_lt_is_Some_2 l i) as [r0 Hr0];
      [rewrite Hlen; by apply lookup_lt_Some in Hi|].
    exists (set_date r0 (Timestamp d)), d. split; [|done].
    rewrite (stable_sort_Permutation row_leb_na).
    apply list_elem_of_lookup. exists i.
    by rewrite lookup_zip_with, Hr0, Hi.
Qed.

Lemma aggregate_na_dated (df : DataFrame datetime) :
  "ticker" ∈ columns df → "date" ∈ columns df →
  rows df = [] ∨ (∃ r d, r ∈ rows df ∧ date r = Timestamp d) →
  aggregate_to_monthly_na df
  = aggregate_to_monthly (mkFrame (columns df) (dated_rows (rows df))).
Proof.
  intros Ht Hd Hsome. unfold aggregate_to_monthly_na.
  by rewrite groupby_month_Ok.
Qed.

Lemma main_aborts_load (parse_date : string → option datetime)
    (can_write : string → bool)
    (files : gmap string (DataFrame string)) (e : error) :
  load_and_prepare_data parse_date files INPUT_FILE = Err e →
  main parse_date can_write files = mkRun [] (Failed e).
Proof. intros H. unfold main. by rewrite H. Qed.

Lemma main_aborts_aggregate (parse_date : string → option datetime)
    (can_write : string → bool)
    (files : gmap string (DataFrame string)) (raw : DataFrame datetime)
    (e : error) :
  load_and_prepare_data parse_date files INPUT_FILE = Ok raw →
  aggregate_to_monthly_na raw = Err e →
  main parse_date can_write files = mkRun [] (Failed e).
Proof.
  intros H1 H2. unfold main. rewrite H1. cbn [mbind result_bind].
  by rewrite H2.
Qed.

(** A run whose first three stages succeed ends as the writer ends. *)
Lemma main_writes (parse_date : string → option datetime)
    (can_write : string → bool)
    (files : gmap string (DataFrame string)) (raw : DataFrame datetime)
    (monthly final : DataFrame Date) :
  load_and_prepare_data parse_date files INPUT_FILE = Ok raw →
  aggregate_to_monthly_na raw = Ok monthly →
  add_technical_indicators monthly = Ok final →
  written (main parse_date can_write files)
  = (save_by_ticker can_write final OUTPUT_DIR).1
  ∧ report (main parse_date can_write files)
    = match (save_by_ticker can_write final OUTPUT_DIR).2 with
      | Ok _ => Completed
      | Err e => Failed e
      end.
Proof.
  intros H1 H2 H3. unfold main. rewrite H1. cbn [mbind result_bind].
  rewrite H2. cbn [mbind result_bind]. rewrite H3.
  by destruct (save_by_ticker can_write final OUTPUT_DIR) as [out [[]|e]].
Qed.

(** ** The stages of a run together *)

Lemma require_Ok_inv {D : Type} (df : DataFrame D) (names : list string) :
  require df names = Ok tt → Forall (λ c, c ∈ columns df) names.
Proof.
  unfold require.
  destruct (filter (λ c, c ∉ columns df) names) as [|c l] eqn:Hf; [|done].
  intros _. apply Forall_forall. intros c Hc. apply dec_stable. intros Hn.
  assert (c ∈ filter (λ c, c ∉ columns df) names) as Hin
    by (by apply list_elem_of_filter).
  rewrite Hf in Hin. by apply elem_of_nil in Hin.
Qed.

Lemma to_datetime_Ok_inv (parse_date : string → option datetime)
    (col : list (Row string)) (l : list (Row datetime)) :
  to_datetime parse_date col = Ok l →
  ∃ ds, mapM parse_date (date <$> col) = Some ds ∧ l = zip_with set_date col ds.
Proof.
  revert l. induction col as [|r col IH]; intros l; cbn [to_datetime].
  - intros [= <-]. by exists [].
  - destruct (parse_date (date r)) as [d|] eqn:Hd; [|done].
    destruct (to_datetime parse_date col) as [rest|e]; [|done].
    cbn [mbind result_bind]. intros [= <-].
    destruct (IH rest eq_refl) as (ds & Hds & ->).
    exists (d :: ds). split; [|done].
    rewrite fmap_cons. apply mapM_Some. constructor; [done|].
    by apply mapM_Some.
Qed.

(** What a successful load says of the file and of the table returned. *)
Lemma load_Ok_inv (parse_date : string → option datetime)
    (files : gmap string (DataFrame string)) (file_path : string)
    (out : DataFrame datetime) :
  load_and_prepare_data parse_date files file_path = Ok out →
  ∃ df ds,
    files !! file_path = Some df
    ∧ "ticker" ∈ columns df ∧ "date" ∈ columns df
    ∧ mapM parse_date (date <$> rows df) = Some ds
    ∧ out = mkFrame (columns df)
              (stable_sort row_leb_na (zip_with set_date (rows df) ds)).
Proof.
  intros Hload. unfold load_and_prepare_data, read_csv in Hload.
  destruct (files !! file_path) as [df|] eqn:Hfile; [|done].
  assert (load_and_prepare_data parse_date files file_path = Ok out) as Hload'.
  { unfold load_and_prepare_data, read_csv. by rewrite Hfile. }
  destruct (load_columns _ _ _ _ _ Hfile Hload') as (Hc & Hd & Ht).
  cbn [mbind result_bind] in Hload.
  rewrite require_Ok in Hload by (by repeat constructor).
  cbn [mbind result_bind] in Hload.
  destruct (to_datetime parse_date (rows df)) as [parsed|e] eqn:Hp; [|done].
  cbn [mbind result_bind] in Hload.
  destruct (to_datetime_Ok_inv _ _ _ Hp) as (ds & Hds & ->).
  unfold sort_values in Hload.
  rewrite require_Ok in Hload by (by repeat constructor).
  cbn [mbind result_bind] in Hload. injection Hload as <-.
  by exists df, ds.
Qed.

Lemma groupby_month_Ok_inv (df : DataFrame datetime) (out : DataFrame Date) :
  groupby_month df = Ok out →
  "ticker" ∈ columns df ∧ "date" ∈ columns df
  ∧ out = mkFrame (columns df) (dated_rows (rows df))
  ∧ (rows df = [] ∨ dated_rows (rows df) ≠ []).
Proof.
  unfold groupby_month.
  destruct (require df ["ticker"; "date"]) as [[]|e] eqn:Hreq; [|done].
  apply require_Ok_inv in Hreq.
  apply Forall_cons in Hreq as (Ht & (Hd & _)%Forall_cons).
  cbn [mbind result_bind].
  destruct (rows df) as [|r l]; [intros [= <-]; auto|].
  destruct (dated_rows (r :: l)) as [|m ms] eqn:Hdated; [done|].
  intros [= <-]. split; [done|]. split; [done|].
  split; [done|]. by right.
Qed.


(** The first three stages on a file that has the seven columns, whose
    date cells are all read, and which has a date or no rows: they
    succeed, the enriched table has the eleven columns, and its (ticker,
    month) keys are those of the rows of the file that have a date. *)
Lemma run_stages (parse_date : string → option datetime)
    (files : gmap string (DataFrame string)) (df : DataFrame string)
    (ds : list datetime) :
  files !! INPUT_FILE = Some df →
  Forall (λ c, c ∈ columns df) required_columns →
  mapM parse_date (date <$> rows df) = Some ds →
  some_date ds →
  ∃ raw monthly final,
    load_and_prepare_data parse_date files INPUT_FILE = Ok raw
    ∧ aggregate_to_monthly_na raw = Ok monthly
    ∧ add_technical_indicators monthly = Ok final
    ∧ columns final = enriched_columns
    ∧ (∀ k, k ∈ sort_key <$> rows monthly ↔
            ∃ r d, r ∈ zip_with set_date (rows df) ds
                   ∧ date r = Timestamp d
                   ∧ k = (ticker r, month_end d))
    ∧ sort_key <$> rows final ≡ₚ sort_key <$> rows monthly.
Proof.
  intros Hfile (Ht & Hd & Hall)%required_columns_inv Hds Hsome.
  pose proof (load_Ok_rows parse_date files INPUT_FILE df ds
                Hfile Ht Hd Hds) as Hload.
  set (raw := mkFrame (columns df)
                (stable_sort row_leb_na (zip_with set_date (rows df) ds)))
    in *.
  set (dated := mkFrame (columns df) (dated_rows (rows raw))).
  assert (aggregate_to_monthly_na raw = aggregate_to_monthly dated) as Hna.
  { apply aggregate_na_dated; [done|done|]. apply some_date_rows; [|done].
    apply length_mapM in Hds. by rewrite length_fmap in Hds. }
  pose proof (aggregate_Ok dated Ht Hd Hall) as Hagg.
  set (monthly := mkFrame ("ticker" :: "date" :: (fst <$> agg_dict))
                    (reset_index
                       (group_keys (rows dated) ≫= λ k,
                          agg_group k
                            (filter (λ r, bucket r = k) (rows dated)))))
    in *.
  destruct (add_technical_indicators_Ok monthly) as [final Hfinal];
    [repeat constructor|].
  exists raw, monthly, final.
  split; [done|]. split; [by rewrite Hna|]. split; [done|].
  split; [by apply (pipeline_columns dated monthly)|].
  split; [|by apply indicators_keys].
  intros k. rewrite (aggregate_keys dated monthly Hagg).
  rewrite elem_of_group_keys. split.
  - intros (m & (r & d & Hr & Hrd & ->)%elem_of_dated_rows & <-).
    exists r, d. split; [|done].
    by rewrite <- (stable_sort_Permutation row_leb_na).
  - intros (r & d & Hr & Hrd & ->). exists (set_date r d). split; [|done].
    apply elem_of_dated_rows. exists r, d. split; [|done].
    cbn [rows raw]. by rewrite (stable_sort_Permutation row_leb_na).
Qed.

(** C3, as the code has it: reading stops at the first exception and the
    run is aborted with nothing written.  A file without the [date] column
    raises SchemaError in the loader; otherwise a date text that
    [pd.to_datetime] rejects raises ParseError in the loader; otherwise a
    file without the [ticker] column raises SchemaError in the loader.  A
    file that lacks one of the columns of the aggregation dictionary
    passes the loader and raises SchemaError in the monthly aggregation.
    A date cell that is missing, or holds a text taken for NaT, raises
    nothing: it is read as NaT, the loader returns, and as long as some
    row has a date the monthly aggregation leaves the row out of every
    group, the indicators are computed, and the run completes when the
    files can be written. *)
Theorem run_aborts_on_bad_input
    (parse_date : string → option datetime) (can_write : string → bool)
    (files : gmap string (DataFrame string)) (df : DataFrame string) :
  files !! INPUT_FILE = Some df →
  ("date" ∉ columns df →
   load_and_prepare_data parse_date files INPUT_FILE
   = Err (SchemaError ["date"]))
  ∧ (∀ r, "date" ∈ columns df → r ∈ rows df → parse_date (date r) = None →
     ∃ text, load_and_prepare_data parse_date files INPUT_FILE
             = Err (ParseError text) ∧ parse_date text = None)
  ∧ (∀ ds, "date" ∈ columns df →
     mapM parse_date (date <$> rows df) = Some ds →
     "ticker" ∉ columns df →
     load_and_prepare_data parse_date files INPUT_FILE
     = Err (SchemaError ["ticker"]))
  ∧ (∀ ds c, "ticker" ∈ columns df → "date" ∈ columns df →
     mapM parse_date (date <$> rows df) = Some ds →
     some_date ds →
     c ∈ (fst <$> agg_dict) → c ∉ columns df →
     ∃ raw missing,
       load_and_prepare_data parse_date files INPUT_FILE = Ok raw
       ∧ aggregate_to_monthly_na raw = Err (SchemaError missing)
       ∧ c ∈ missing)
  ∧ (∀ e,
     load_and_prepare_data parse_date files INPUT_FILE = Err e
     ∨ (∃ raw, load_and_prepare_data parse_date files INPUT_FILE = Ok raw
               ∧ aggregate_to_monthly_na raw = Err e) →
     main parse_date can_write files = mkRun [] (Failed e))
  ∧ (∀ ds, Forall (λ c, c ∈ columns df) required_columns →
     mapM parse_date (date <$> rows df) = Some ds →
     some_date ds →
     ∃ raw monthly final,
       load_and_prepare_data parse_date files INPUT_FILE = Ok raw
       ∧ aggregate_to_monthly_na raw = Ok monthly
       ∧ add_technical_indicators monthly = Ok final
       ∧ (∀ k, k ∈ sort_key <$> rows monthly ↔
               ∃ r d, r ∈ zip_with set_date (rows df) ds
                      ∧ date r = Timestamp d
                      ∧ k = (ticker r, month_end d))
       ∧ written (main parse_date can_write files)
         = (save_by_ticker can_write final OUTPUT_DIR).1
       ∧ ((∀ path, can_write path = true) →
          report (main parse_date can_write files) = Completed)).
Proof.
  intros Hfile. split; [|split; [|split; [|split; [|split]]]].
  - by apply load_Err_date_column.
  - intros r Hd Hr Hnone. by apply (load_Err_parse _ _ _ df r).
  - intros ds Hd Hds Ht. by apply (load_Err_ticker_column _ _ _ df ds).
  - intros ds c Ht Hd Hds Hsome Hc Hmiss.
    pose proof (load_Ok_rows parse_date files INPUT_FILE df ds
                  Hfile Ht Hd Hds) as Hload.
    set (raw := mkFrame (columns df)
                  (stable_sort row_leb_na (zip_with set_date (rows df) ds)))
      in *.
    assert (aggregate_to_monthly_na raw
            = aggregate_to_monthly
                (mkFrame (columns df) (dated_rows (rows raw)))) as Hna.
    { apply aggregate_na_dated; [done|done|]. apply some_date_rows; [|done].
      apply length_mapM in Hds. by rewrite length_fmap in Hds. }
    destruct (aggregate_Err_column
                (mkFrame (columns df) (dated_rows (rows raw))) c)
      as (missing & Hagg & Hin); try done.
    exists raw, missing. by rewrite Hna.
  - intros e [Hload|(raw & Hload & Hagg)].
    + by apply main_aborts_load.
    + by apply (main_aborts_aggregate _ _ _ raw).
  - intros ds Hreq Hds Hsome.
    destruct (run_stages parse_date files df ds Hfile Hreq Hds Hsome)
      as (raw & monthly & final & Hload & Hagg & Hfinal & Hcols & Hkeys & _).
    exists raw, monthly, final.
    split; [done|]. split; [done|]. split; [done|]. split; [done|].
    destruct (main_writes parse_date can_write files raw monthly final)
      as [Hwritten Hreport]; [done..|].
    split; [done|].
    intros Hall_writable. rewrite Hreport.
    rewrite save_by_ticker_loop, save_loop_Ok; [done|done| |done].
    apply Forall_forall. intros s _. apply Hall_writable.
Qed.

Lemma run_aborts_on_bad_input_witness :
  main iso_date output_folder_only {[INPUT_FILE := sample_no_volume]}
  = mkRun [] (Failed (SchemaError ["volume"]))
  ∧ report (main iso_date (λ _, true) {[INPUT_FILE := sample_undated]})
    = Completed.
Proof.
  split.
  - destruct (run_aborts_on_bad_input iso_date output_folder_only
                {[INPUT_FILE := sample_no_volume]} sample_no_volume)
      as (_ & _ & _ & _ & Habort & _).
    + reflexivity.
    + apply Habort. right.
      eexists. split.
      * vm_compute. reflexivity.
      * vm_compute. reflexivity.
  - destruct (run_aborts_on_bad_input iso_date (λ _, true)
                {[INPUT_FILE := sample_undated]} sample_undated)
      as (_ & _ & _ & _ & _ & Hgoes_on).
    + reflexivity.
    + destruct (Hgoes_on sample_undated_dates)
        as (raw & monthly & final & _ & _ & _ & _ & _ & Hcompleted).
      * apply (bool_decide_unpack _). vm_compute. exact I.
      * vm_compute. reflexivity.
      * apply (bool_decide_unpack _). vm_compute. exact I.
      * by apply Hcompleted.
Defined.

(** C3 as stated fails.  A file without the [volume] column passes the
    loader.  A file with an empty date cell passes it too: the cell is
    read as NaT, the row is left out, and the run completes with the files
    it writes for the same file without that row. *)
Lemma loader_accepts_bad_input :
  ("volume" ∈ required_columns
   ∧ ("volume" ∉ columns sample_no_volume)
   ∧ ∀ e, load_and_prepare_data iso_date {[INPUT_FILE := sample_no_volume]}
            INPUT_FILE ≠ Err e)
  ∧ (EmptyString ∈ (date <$> rows sample_undated)
     ∧ iso_date EmptyString = Some NaT
     ∧ (∀ e, load_and_prepare_data iso_date {[INPUT_FILE := sample_undated]}
               INPUT_FILE ≠ Err e)
     ∧ report (main iso_date output_folder_only
                 {[INPUT_FILE := sample_undated]}) = Completed
     ∧ main iso_date output_folder_only {[INPUT_FILE := sample_undated]}
       = main iso_date output_folder_only {[INPUT_FILE := sample]}).
Proof.
  split; [split; [|split]|split; [|split; [|split; [|split]]]].
  - apply (bool_decide_unpack _). vm_compute. exact I.
  - apply (bool_decide_unpack _). vm_compute. exact I.
  - intros e. vm_compute. discriminate.
  - apply (bool_decide_unpack _). vm_compute. exact I.
  - vm_compute. reflexivity.
  - intros e. vm_compute. discriminate.
  - vm_compute. reflexivity.
  - vm_compute. reflexivity.
Qed.

(** ** The caller's table *)

Lemma assign_fresh (h : gmap nat (DataFrame Date)) (l : nat)
    (d : DataFrame Date) (name : string) (series : list (option Qc)) :
  assign l name series (<[l := d]> h)
  = (<[l := setitem name series d]> h, Ok tt).
Proof.
  unfold assign. f_equal.
  rewrite alter_insert_eq. done.
Qed.

Lemma Stmt_bind_Ok {A B : Type} (m : Stmt A) (k : A → Stmt B)
    (h h' : gmap nat (DataFrame Date)) (a : A) :
  m h = (h', Ok a) → (m ≫= k) h = k a h'.
Proof. intros Hm. unfold mbind, Stmt_bind. by rewrite Hm. Qed.

Lemma Stmt_bind_Err {A B : Type} (m : Stmt A) (k : A → Stmt B)
    (h h' : gmap nat (DataFrame Date)) (e : error) :
  m h = (h', Err e) → (m ≫= k) h = (h', Err e).
Proof. intros Hm. unfold mbind, Stmt_bind. by rewrite Hm. Qed.

(** What the call does to the store: it adds one table, the returned one,
    and changes no other. *)
Lemma add_technical_indicators_obj_spec
    (h : gmap nat (DataFrame Date)) (df : nat) (d : DataFrame Date) :
  h !! df = Some d →
  add_technical_indicators_obj df h
  = match sort_values row_leb d with
    | Err e => (h, Err e)
    | Ok sorted =>
        match add_technical_indicators d with
        | Ok out => (<[fresh (dom h) := out]> h, Ok (fresh (dom h)))
        | Err e => (<[fresh (dom h) := sorted]> h, Err e)
        end
    end.
Proof.
  intros Hd. unfold add_technical_indicators_obj, add_technical_indicators.
  rewrite (Stmt_bind_Ok _ _ h h d) by (unfold deref; by rewrite Hd).
  destruct (sort_values row_leb d) as [sorted|e];
    [|by rewrite (Stmt_bind_Err _ _ h h e)].
  rewrite (Stmt_bind_Ok _ _ h h sorted) by done.
  rewrite (Stmt_bind_Ok _ _ h (<[fresh (dom h) := sorted]> h) (fresh (dom h)))
    by done.
  set (l := fresh (dom h)).
  rewrite (Stmt_bind_Ok _ _ _ (<[l := sorted]> h) sorted)
    by (unfold deref; by rewrite lookup_insert_eq).
  cbn [mbind result_bind].
  destruct (require sorted ["ticker"]) as [[]|e];
    [|by rewrite (Stmt_bind_Err _ _ _ (<[l := sorted]> h) e)].
  rewrite (Stmt_bind_Ok _ _ _ (<[l := sorted]> h) tt) by done.
  cbn [mbind result_bind].
  destruct (require sorted ["close"]) as [[]|e];
    [|by rewrite (Stmt_bind_Err _ _ _ (<[l := sorted]> h) e)].
  rewrite (Stmt_bind_Ok _ _ _ (<[l := sorted]> h) tt) by done.
  cbn [mbind result_bind].
  erewrite Stmt_bind_Ok by apply assign_fresh.
  erewrite Stmt_bind_Ok by apply assign_fresh.
  erewrite Stmt_bind_Ok by apply assign_fresh.
  erewrite Stmt_bind_Ok by apply assign_fresh.
  done.
Qed.

(** C10: the table the caller passes is the same after the call, as is
    every other table the caller holds; the enriched table is a new
    object. *)
Theorem caller_table_unchanged
    (h : gmap nat (DataFrame Date)) (df : nat) (d : DataFrame Date) :
  h !! df = Some d →
  (add_technical_indicators_obj df h).1 !! df = Some d
  ∧ (∀ l d0, h !! l = Some d0 →
       (add_technical_indicators_obj df h).1 !! l = Some d0)
  ∧ (∀ out, add_technical_indicators d = Ok out →
       ∃ l, (add_technical_indicators_obj df h).2 = Ok l
            ∧ h !! l = None
            ∧ (add_technical_indicators_obj df h).1 !! l = Some out)
  ∧ (∀ e, add_technical_indicators d = Err e →
       (add_technical_indicators_obj df h).2 = Err e).
Proof.
  intros Hd. rewrite (add_technical_indicators_obj_spec h df d Hd).
  assert (h !! fresh (dom h) = None) as Hfresh
    by (apply not_elem_of_dom, is_fresh).
  assert (∀ l d0 x, h !! l = Some d0 →
            <[fresh (dom h) := x]> h !! l = Some d0) as Hkeep.
  { intros l d0 x Hl. rewrite lookup_insert_ne; [done|]. congruence. }
  destruct (sort_values row_leb d) as [sorted|e] eqn:Hsort.
  - destruct (add_technical_indicators d) as [out|e]; cbn [fst snd].
    + split; [by apply Hkeep|]. split; [intros; by apply Hkeep|].
      split; [|done]. intros ? [= <-]. exists (fresh (dom h)).
      by rewrite lookup_insert_eq.
    + split; [by apply Hkeep|]. split; [intros; by apply Hkeep|].
      split; [done|]. by intros ? [= <-].
  - assert (add_technical_indicators d = Err e) as ->
      by (unfold add_technical_indicators; by rewrite Hsort).
    cbn [fst snd]. split; [done|]. split; [done|].
    split; [done|]. by intros ? [= <-].
Qed.


Lemma caller_table_unchanged_witness :
  (add_technical_indicators_obj 0 {[0%nat := monthly_1]}).1 !! 0%nat
  = Some monthly_1
  ∧ (∀ l d0, ({[0%nat := monthly_1]} : gmap nat (DataFrame Date)) !! l = Some d0 →
       (add_technical_indicators_obj 0 {[0%nat := monthly_1]}).1 !! l = Some d0)
  ∧ (∀ out, add_technical_indicators monthly_1 = Ok out →
       ∃ l, (add_technical_indicators_obj 0 {[0%nat := monthly_1]}).2 = Ok l
            ∧ ({[0%nat := monthly_1]} : gmap nat (DataFrame Date)) !! l = None
            ∧ (add_technical_indicators_obj 0 {[0%nat := monthly_1]}).1 !! l
              = Some out)
  ∧ (∀ e, add_technical_indicators monthly_1 = Err e →
       (add_technical_indicators_obj 0 {[0%nat := monthly_1]}).2 = Err e).
Proof.
  apply (caller_table_unchanged {[0%nat := monthly_1]} 0 monthly_1).
  reflexivity.
Defined.
(** * Further properties of the stages *)

(** ** The monthly table *)

Lemma aggregate_Ok_inv (df out : DataFrame Date) :
  aggregate_to_monthly df = Ok out →
  "ticker" ∈ columns df ∧ "date" ∈ columns df
  ∧ Forall (λ c, c ∈ columns df) (fst <$> agg_dict).
Proof.
  unfold aggregate_to_monthly.
  destruct (require df ["ticker"; "date"]) as [[]|e] eqn:Hreq; [|done].
  cbn [mbind result_bind].
  destruct (filter _ _) as [|c l] eqn:Hf; [|done]. intros _.
  unfold require in Hreq. rewrite !filter_cons in Hreq.
  destruct (decide ("ticker" ∉ columns df)) as [|Ht]; [done|].
  destruct (decide ("date" ∉ columns df)) as [|Hd]; [done|].
  split; [by apply dec_stable|]. split; [by apply dec_stable|].
  apply Forall_forall. intros c Hc. apply dec_stable. intros Hn.
  assert (c ∈ filter (λ c, c ∉ columns df) (fst <$> agg_dict)) as Hin
    by (by apply list_elem_of_filter).
  rewrite Hf in Hin. by apply elem_of_nil in Hin.
Qed.

(** Every row of the monthly table is the reduction of a group of rows of
    the input that is not empty. *)
Lemma aggregate_row_inv (df out : DataFrame Date) (m : Row Date) :
  aggregate_to_monthly df = Ok out → m ∈ rows out →
  ∃ r g,
    filter (λ x, bucket x = sort_key m) (rows df) = r :: g
    ∧ open m = open r
    ∧ close m = close (List.last g r)
    ∧ high m = foldl Qc_max (high r) (high <$> g)
    ∧ low m = foldl Qc_min (low r) (low <$> g)
    ∧ volume m = foldl add64 0%Z (volume <$> r :: g).
Proof.
  intros Hagg Hm.
  destruct (aggregate_Ok_inv df out Hagg) as (Ht & Hd & Hall).
  assert (sort_key m ∈ group_keys (rows df)) as Hk.
  { rewrite <- (aggregate_keys df out Hagg). apply list_elem_of_fmap. eauto. }
  apply elem_of_group_keys in Hk as (r0 & Hr0 & Hb).
  assert (r0 ∈ filter (λ x, bucket x = sort_key m) (rows df)) as Hin
    by (by apply list_elem_of_filter).
  destruct (filter (λ x, bucket x = sort_key m) (rows df)) as [|r g] eqn:Hg;
    [by apply elem_of_nil in Hin|].
  destruct (aggregate_group df (sort_key m) r g Ht Hd Hall Hg)
    as (out' & i & Hout' & Hrow).
  assert (out' = out) as -> by congruence.
  assert (m ∈ filter (λ x, sort_key x = sort_key m) (rows out)) as Hmf
    by (by apply list_elem_of_filter).
  rewrite Hrow in Hmf. apply list_elem_of_singleton in Hmf.
  exists r, g. split; [done|]. by rewrite Hmf.
Qed.

Lemma StronglySorted_NoDup_strict {A : Type} (R : relation A) (l : list A) :
  StronglySorted R l → NoDup l → StronglySorted (λ a b, R a b ∧ a ≠ b) l.
Proof.
  induction 1 as [|x l Hl IH Hx]; intros Hnd; [constructor|].
  apply NoDup_cons in Hnd as [Hxl Hnd]. constructor; [by apply IH|].
  rewrite Forall_forall in Hx. apply Forall_forall. intros y Hy.
  split; [by apply Hx|]. by intros ->.
Qed.

Lemma label_reset_index {D : Type} (l : list (Row D)) :
  label <$> reset_index l = seq 0 (length l).
Proof.
  unfold reset_index. rewrite fmap_imap.
  rewrite (imap_ext _ (λ j _, id j)) by done.
  by rewrite imap_seq_0, list_fmap_id.
Qed.

Lemma aggregate_labels (df out : DataFrame Date) :
  aggregate_to_monthly df = Ok out →
  label <$> rows out = seq 0 (length (rows out)).
Proof.
  unfold aggregate_to_monthly.
  destruct (require df ["ticker"; "date"]) as [[]|e]; [|done].
  cbn [mbind result_bind].
  destruct (filter _ _); [|done]. intros [= <-]. cbn [rows].
  rewrite label_reset_index. f_equal.
  unfold reset_index. by rewrite length_imap.
Qed.

(** X1: the monthly table has exactly one row for every (ticker, month)
    pair that occurs in its input and none for any other pair; the rows are
    in strictly ascending order of (ticker, month end) and are labelled
    0, 1, 2, ... *)
Theorem monthly_table_shape (df out : DataFrame Date) :
  aggregate_to_monthly df = Ok out →
  StronglySorted (λ a b, key_leb a b = true ∧ a ≠ b) (sort_key <$> rows out)
  ∧ (∀ k, k ∈ sort_key <$> rows out ↔ ∃ r, r ∈ rows df ∧ bucket r = k)
  ∧ label <$> rows out = seq 0 (length (rows out)).
Proof.
  intros Hagg. rewrite (aggregate_keys df out Hagg).
  split; [|split].
  - apply StronglySorted_NoDup_strict;
      [apply group_keys_sorted|apply NoDup_group_keys].
  - intros k. apply elem_of_group_keys.
  - by apply (aggregate_labels df).
Qed.

Lemma monthly_table_shape_witness :
  StronglySorted (λ a b, key_leb a b = true ∧ a ≠ b)
    (sort_key <$> rows two_days_monthly)
  ∧ (∀ k, k ∈ sort_key <$> rows two_days_monthly
          ↔ ∃ r, r ∈ rows two_days ∧ bucket r = k)
  ∧ label <$> rows two_days_monthly = seq 0 (length (rows two_days_monthly)).
Proof.
  apply (monthly_table_shape two_days two_days_monthly).
  vm_compute. reflexivity.
Defined.

Lemma foldl_add64_range (l : list Z) : in_int64 (foldl add64 0%Z l).
Proof.
  rewrite (foldl_add64 0 l : foldl add64 0%Z l = _).
  unfold in_int64, wrap64.
  pose proof (Z.mod_pos_bound (0 + Zsum l + 2 ^ 63) (2 ^ 64)) as H. lia.
Qed.

(** X2: the high of a monthly row is one of the highs of its group and is
    not below any of them; its low is one of the lows of the group and is
    not above any of them. *)
Theorem monthly_high_low (df out : DataFrame Date) (m : Row Date) :
  aggregate_to_monthly df = Ok out → m ∈ rows out →
  high m ∈ high <$> filter (λ x, bucket x = sort_key m) (rows df)
  ∧ Forall (λ x, (high x <= high m)%Qc)
      (filter (λ x, bucket x = sort_key m) (rows df))
  ∧ low m ∈ low <$> filter (λ x, bucket x = sort_key m) (rows df)
  ∧ Forall (λ x, (low m <= low x)%Qc)
      (filter (λ x, bucket x = sort_key m) (rows df)).
Proof.
  intros Hagg Hm.
  destruct (aggregate_row_inv df out m Hagg Hm)
    as (r & g & -> & _ & _ & -> & -> & _).
  destruct (foldl_Qc_max_spec (high r) (high <$> g)) as [Hin Hall].
  destruct (foldl_Qc_min_spec (low r) (low <$> g)) as [Hin' Hall'].
  change (high r :: (high <$> g)) with (high <$> r :: g) in Hin, Hall.
  change (low r :: (low <$> g)) with (low <$> r :: g) in Hin', Hall'.
  rewrite Forall_fmap in Hall, Hall'. done.
Qed.

Lemma monthly_high_low_witness :
  ∃ m,
    m ∈ rows two_days_monthly
    ∧ high m ∈ high <$> filter (λ x, bucket x = sort_key m) (rows two_days)
    ∧ Forall (λ x, (high x <= high m)%Qc)
        (filter (λ x, bucket x = sort_key m) (rows two_days))
    ∧ low m ∈ low <$> filter (λ x, bucket x = sort_key m) (rows two_days)
    ∧ Forall (λ x, (low m <= low x)%Qc)
        (filter (λ x, bucket x = sort_key m) (rows two_days)).
Proof.
  eexists. split; [by left|].
  apply (monthly_high_low two_days two_days_monthly).
  - vm_compute. reflexivity.
  - by left.
Defined.

(** X3: the volume of a monthly row is the int64 sum of the volumes of
    its group: the exact sum wrapped around modulo 2^64, always an int64,
    and the exact sum itself when that is an int64. *)
Theorem monthly_volume (df out : DataFrame Date) (m : Row Date) :
  aggregate_to_monthly df = Ok out → m ∈ rows out →
  volume m
  = wrap64 (Zsum (volume <$> filter (λ x, bucket x = sort_key m) (rows df)))
  ∧ in_int64 (volume m)
  ∧ (in_int64
       (Zsum (volume <$> filter (λ x, bucket x = sort_key m) (rows df))) →
     volume m
     = Zsum (volume <$> filter (λ x, bucket x = sort_key m) (rows df))).
Proof.
  intros Hagg Hm.
  destruct (aggregate_row_inv df out m Hagg Hm)
    as (r & g & -> & _ & _ & _ & _ & ->).
  assert (foldl add64 0%Z (volume <$> r :: g)
          = wrap64 (Zsum (volume <$> r :: g))) as Hsum
    by exact (foldl_add64 0 (volume <$> r :: g)).
  split; [done|]. split; [apply foldl_add64_range|].
  intros Hr. by rewrite Hsum, wrap64_id.
Qed.

Lemma monthly_volume_witness :
  ∃ m,
    m ∈ rows two_days_monthly
    ∧ volume m
      = wrap64 (Zsum (volume <$> filter (λ x, bucket x = sort_key m)
                                   (rows two_days)))
    ∧ in_int64 (volume m)
    ∧ (in_int64
         (Zsum (volume <$> filter (λ x, bucket x = sort_key m)
                             (rows two_days))) →
       volume m
       = Zsum (volume <$> filter (λ x, bucket x = sort_key m)
                            (rows two_days))).
Proof.
  eexists. split; [by left|].
  apply (monthly_volume two_days two_days_monthly).
  - vm_compute. reflexivity.
  - by left.
Defined.

(** X4: when every row of the input has its open and close between its
    low and its high, so has every row of the monthly table. *)
Theorem monthly_ohlc_consistent (df out : DataFrame Date) :
  aggregate_to_monthly df = Ok out →
  Forall ohlc_consistent (rows df) →
  Forall ohlc_consistent (rows out).
Proof.
  intros Hagg Hall. apply Forall_forall. intros m Hm.
  destruct (aggregate_row_inv df out m Hagg Hm)
    as (r & g & Hg & Ho & Hc & Hh & Hl & _).
  assert (Forall ohlc_consistent (r :: g)) as Hgrp.
  { rewrite <- Hg. apply Forall_forall.
    intros x [_ Hx]%list_elem_of_filter.
    rewrite Forall_forall in Hall. by apply Hall. }
  destruct (foldl_Qc_max_spec (high r) (high <$> g)) as [_ Hmax].
  destruct (foldl_Qc_min_spec (low r) (low <$> g)) as [_ Hmin].
  change (high r :: (high <$> g)) with (high <$> r :: g) in Hmax.
  change (low r :: (low <$> g)) with (low <$> r :: g) in Hmin.
  rewrite Forall_fmap in Hmax, Hmin. rewrite <- Hh in Hmax. rewrite <- Hl in Hmin.
  rewrite Forall_forall in Hgrp, Hmax, Hmin.
  assert (∀ x, x ∈ r :: g →
            (low m <= open x)%Qc ∧ (open x <= high m)%Qc
            ∧ (low m <= close x)%Qc ∧ (close x <= high m)%Qc) as Hx.
  { intros x Hx. destruct (Hgrp x Hx) as (H1 & H2 & H3 & H4).
    specialize (Hmax x Hx). specialize (Hmin x Hx). simpl in Hmax, Hmin.
    repeat split; eapply Qcle_trans; eassumption. }
  unfold ohlc_consistent. rewrite Ho, Hc.
  destruct (Hx r) as (H1 & H2 & _ & _); [by left|].
  destruct (Hx (List.last g r)) as (_ & _ & H3 & H4); [apply last_elem_of|].
  done.
Qed.

Lemma monthly_ohlc_consistent_witness :
  Forall ohlc_consistent (rows two_days_monthly).
Proof.
  apply (monthly_ohlc_consistent two_days two_days_monthly).
  - vm_compute. reflexivity.
  - repeat constructor; vm_compute; discriminate.
Defined.

(** ** The stages of a run together *)

Lemma dated_rows_sorted (l : list (Row datetime)) :
  StronglySorted (λ a b, row_leb_na a b = true) l →
  StronglySorted (λ a b, row_leb a b = true) (dated_rows l).
Proof.
  induction 1 as [|x l Hl IH Hx]; [constructor|].
  unfold dated_rows. cbn [omap list_omap]. fold (dated_rows l).
  destruct (date x) as [d|] eqn:Hd; [|done].
  constructor; [done|]. apply Forall_forall.
  intros m (r & d' & Hr & Hrd & ->)%elem_of_dated_rows.
  rewrite Forall_forall in Hx. specialize (Hx r Hr).
  unfold row_leb_na, key_leb_na, sort_key in Hx.
  unfold row_leb, key_leb, sort_key. cbn [fst snd] in *.
  by rewrite Hd, Hrd in Hx.
Qed.

(** X5: in a run, the open of a monthly row is the open of a row of its
    group with the earliest date, and its close is the close of a row of
    its group with the latest date; the group is made of the rows of the
    loaded table that have a date. *)
Theorem run_open_close_chronological
    (parse_date : string → option datetime)
    (files : gmap string (DataFrame string)) (raw : DataFrame datetime)
    (normalized monthly : DataFrame Date) (m : Row Date) :
  load_and_prepare_data parse_date files INPUT_FILE = Ok raw →
  groupby_month raw = Ok normalized →
  aggregate_to_monthly normalized = Ok monthly →
  m ∈ rows monthly →
  ∃ first last,
    first ∈ filter (λ x, bucket x = sort_key m) (rows normalized)
    ∧ last ∈ filter (λ x, bucket x = sort_key m) (rows normalized)
    ∧ open m = open first ∧ close m = close last
    ∧ Forall (λ x, date_leb (date first) (date x) = true
                   ∧ date_leb (date x) (date last) = true)
        (filter (λ x, bucket x = sort_key m) (rows normalized)).
Proof.
  intros Hload Hgroup Hagg Hm.
  destruct (load_Ok_inv _ _ _ _ Hload) as (df & ds & _ & _ & _ & _ & ->).
  destruct (groupby_month_Ok_inv _ _ Hgroup) as (_ & _ & -> & _).
  cbn [rows] in *.
  destruct (aggregate_row_inv _ monthly m Hagg Hm)
    as (r & g & Hg & Ho & Hc & _).
  cbn [rows] in Hg.
  assert (StronglySorted (λ a b, row_leb a b = true)
            (dated_rows
               (stable_sort row_leb_na (zip_with set_date (rows df) ds))))
    as Hsorted.
  { apply dated_rows_sorted, stable_sort_StronglySorted;
      [apply row_leb_na_total|apply row_leb_na_trans]. }
  pose proof (group_chronological _ (sort_key m) r g Hsorted Hg) as Hchron.
  rewrite Hg. exists r, (List.last g r).
  split; [by left|]. split; [apply last_elem_of|]. done.
Qed.

Lemma sample_is_loaded :
  load_and_prepare_data iso_date {[INPUT_FILE := sample]} INPUT_FILE
  = Ok sample_loaded.
Proof.
  unfold sample_loaded.
  destruct (load_and_prepare_data _ _ _) as [raw|e] eqn:Hload; [done|].
  vm_compute in Hload. discriminate.
Qed.

Lemma sample_loaded_normalized :
  groupby_month sample_loaded = Ok sample_normalized.
Proof.
  unfold sample_normalized.
  destruct (groupby_month sample_loaded) as [dated|e] eqn:Hgroup; [done|].
  vm_compute in Hgroup. discriminate.
Qed.

Lemma run_open_close_chronological_witness :
  ∃ m first last,
    m ∈ rows sample_monthly
    ∧ first ∈ filter (λ x, bucket x = sort_key m) (rows sample_normalized)
    ∧ last ∈ filter (λ x, bucket x = sort_key m) (rows sample_normalized)
    ∧ open m = open first ∧ close m = close last
    ∧ Forall (λ x, date_leb (date first) (date x) = true
                   ∧ date_leb (date x) (date last) = true)
        (filter (λ x, bucket x = sort_key m) (rows sample_normalized)).
Proof.
  assert (∃ m, m ∈ rows sample_monthly) as [m Hm].
  { eexists. apply list_elem_of_lookup. exists 0%nat.
    vm_compute. reflexivity. }
  destruct (run_open_close_chronological iso_date {[INPUT_FILE := sample]}
              sample_loaded sample_normalized sample_monthly m
              sample_is_loaded sample_loaded_normalized
              sample_normalized_monthly Hm) as (first & last & H).
  by exists m, first, last.
Defined.




(** ** The enriched table *)

(** The rows of the enriched table: the rows of the input in (ticker, date)
    order, each with the indicators of its place among the rows of its
    ticker. *)
Lemma add_technical_indicators_rows (df out : DataFrame Date) :
  add_technical_indicators df = Ok out →
  rows out
  = imap (λ i r,
            with_indicators
              (close <$> filter (λ x, ticker x = ticker r)
                           (stable_sort row_leb (rows df)))
              (length (filter (λ x, ticker x = ticker r)
                         (take i (stable_sort row_leb (rows df))))) r)
      (stable_sort row_leb (rows df)).
Proof.
  unfold add_technical_indicators, sort_values.
  destruct (require df ["ticker"; "date"]) as [[]|e]; [|done].
  cbn [mbind result_bind].
  destruct (require _ ["ticker"]) as [[]|e]; [|done].
  cbn [mbind result_bind].
  destruct (require _ ["close"]) as [[]|e]; [|done].
  cbn [mbind result_bind]. intros [= <-].
  cbn [rows setitem].
  by rewrite (indicators_rows (stable_sort row_leb (rows df))).
Qed.

Lemma StronglySorted_fmap_inv {A B : Type} (f : A → B) (R : relation B)
    (l : list A) :
  StronglySorted R (f <$> l) → StronglySorted (λ a b, R (f a) (f b)) l.
Proof.
  induction l as [|x l IH]; [constructor|].
  rewrite fmap_cons. intros [Hs Hx]%StronglySorted_inv.
  constructor; [by apply IH|]. by rewrite Forall_fmap in Hx.
Qed.

Lemma rows_sorted_by_keys (l l' : list (Row Date)) :
  sort_key <$> l' = sort_key <$> l →
  StronglySorted (λ a b, row_leb a b = true) l →
  StronglySorted (λ a b, row_leb a b = true) l'.
Proof.
  intros Hk Hs.
  apply (StronglySorted_fmap_inv sort_key (λ a b, key_leb a b = true)).
  rewrite Hk.
  by apply (StronglySorted_fmap sort_key (λ a b, row_leb a b = true)
              (λ a b, key_leb a b = true) l).
Qed.

(** X7: enrichment drops and adds no row and changes no cell of the seven
    OHLCV columns nor any index label: with the indicator cells blanked, the
    rows of the result are the rows of the input in (ticker, date) order,
    rows with equal keys in input order. *)
Theorem enrichment_keeps_table (df out : DataFrame Date) :
  add_technical_indicators df = Ok out →
  clear_indicators <$> rows out
  = clear_indicators <$> stable_sort row_leb (rows df)
  ∧ StronglySorted (λ a b, row_leb a b = true) (rows out)
  ∧ length (rows out) = length (rows df).
Proof.
  intros Hind. rewrite (add_technical_indicators_rows df out Hind).
  assert (∀ (F : nat → Row Date → Row Date) (l : list (Row Date)),
            (∀ i r, clear_indicators (F i r) = clear_indicators r) →
            clear_indicators <$> imap F l = clear_indicators <$> l) as Hclear.
  { intros F l HF. rewrite fmap_imap.
    rewrite <- (imap_const clear_indicators l). apply imap_ext.
    intros i r _. apply HF. }
  split; [by apply Hclear|]. split.
  - eapply rows_sorted_by_keys;
      [|apply (stable_sort_StronglySorted row_leb);
        [apply row_leb_total|apply row_leb_trans]].
    rewrite fmap_imap. rewrite <- (imap_const sort_key (stable_sort _ _)).
    by apply imap_ext.
  - rewrite length_imap. apply Permutation_length, stable_sort_Permutation.
Qed.

Lemma monthly_1_enriched : add_technical_indicators monthly_1 = Ok enriched_1.
Proof.
  unfold enriched_1.
  destruct (add_technical_indicators monthly_1) as [final|e] eqn:Hind; [done|].
  vm_compute in Hind. discriminate.
Qed.

Lemma enrichment_keeps_table_witness :
  clear_indicators <$> rows enriched_1
  = clear_indicators <$> stable_sort row_leb (rows monthly_1)
  ∧ StronglySorted (λ a b, row_leb a b = true) (rows enriched_1)
  ∧ length (rows enriched_1) = length (rows monthly_1).
Proof.
  apply (enrichment_keeps_table monthly_1 enriched_1).
  apply monthly_1_enriched.
Defined.

Lemma aggregate_blank (df out : DataFrame Date) :
  aggregate_to_monthly df = Ok out →
  Forall (λ m, clear_indicators m = m) (rows out).
Proof.
  unfold aggregate_to_monthly.
  destruct (require df ["ticker"; "date"]) as [[]|e]; [|done].
  cbn [mbind result_bind].
  destruct (filter _ _); [|done]. intros [= <-]. cbn [rows].
  apply Forall_forall. intros m Hm.
  apply list_elem_of_lookup in Hm as [i Hi].
  unfold reset_index in Hi. rewrite list_lookup_imap in Hi.
  destruct (_ !! i) as [r|] eqn:Hr; [|done]. injection Hi as <-.
  apply list_elem_of_lookup_2 in Hr.
  apply list_elem_of_bind in Hr as (k & Hr & _).
  destruct (filter _ _) as [|r0 g]; [by apply elem_of_nil in Hr|].
  apply list_elem_of_singleton in Hr as ->. done.
Qed.

Lemma aggregate_sorted (df out : DataFrame Date) :
  aggregate_to_monthly df = Ok out →
  StronglySorted (λ a b, row_leb a b = true) (rows out).
Proof.
  intros Hagg.
  apply (StronglySorted_fmap_inv sort_key (λ a b, key_leb a b = true)).
  rewrite (aggregate_keys df out Hagg). apply group_keys_sorted.
Qed.

(** X8: in a run the sort at the start of the enrichment changes nothing:
    the enriched table has the rows of the monthly table in the same order,
    with the same labels and the same OHLCV cells. *)
Theorem run_enrichment_keeps_order (normalized monthly final : DataFrame Date) :
  aggregate_to_monthly normalized = Ok monthly →
  add_technical_indicators monthly = Ok final →
  clear_indicators <$> rows final = rows monthly.
Proof.
  intros Hagg Hind.
  rewrite (add_technical_indicators_rows monthly final Hind).
  rewrite (stable_sort_sorted row_leb (rows monthly))
    by (by apply (aggregate_sorted normalized)).
  rewrite fmap_imap.
  transitivity (clear_indicators <$> rows monthly).
  - rewrite <- (imap_const clear_indicators (rows monthly)). by apply imap_ext.
  - pose proof (aggregate_blank normalized monthly Hagg) as Hb.
    induction Hb as [|m l Hm _ IH]; [done|].
    by rewrite fmap_cons, Hm, IH.
Qed.

Lemma run_enrichment_keeps_order_witness :
  clear_indicators <$> rows sample_final = rows sample_monthly.
Proof.
  apply (run_enrichment_keeps_order sample_normalized sample_monthly).
  - apply sample_normalized_monthly.
  - apply sample_monthly_final.
Defined.

Lemma add_column_elem (cols : list string) (name c : string) :
  c ∈ add_column cols name ↔ c ∈ cols ∨ c = name.
Proof.
  unfold add_column. destruct (decide (name ∈ cols)) as [Hin|Hin].
  - split; [by left|]. intros [?| ->]; done.
  - rewrite elem_of_app, list_elem_of_singleton. done.
Qed.

Lemma foldl_add_column_elem (cols names : list string) (c : string) :
  c ∈ foldl add_column cols names ↔ c ∈ cols ∨ c ∈ names.
Proof.
  revert cols. induction names as [|n names IH]; intros cols; simpl.
  - split; [by left|]. by intros [?|?%elem_of_nil].
  - rewrite IH, add_column_elem, elem_of_cons. tauto.
Qed.

Lemma foldl_add_column_present (cols names : list string) :
  Forall (λ n, n ∈ cols) names → foldl add_column cols names = cols.
Proof.
  induction 1 as [|n names Hn _ IH]; [done|].
  simpl. unfold add_column at 2. by rewrite decide_True.
Qed.

Lemma filter_ticker_length (l l' : list (Row Date)) (T : string) :
  ticker <$> l = ticker <$> l' →
  length (filter (λ x, ticker x = T) l)
  = length (filter (λ x, ticker x = T) l').
Proof.
  revert l'. induction l as [|x l IH]; intros [|y l'] Heq; try done.
  rewrite !fmap_cons in Heq. injection Heq as Hxy Heq.
  rewrite !filter_cons, Hxy.
  destruct (decide (ticker y = T)); cbn [length]; by rewrite (IH l').
Qed.

(** X9: enriching an enriched table gives the same table again: the four
    indicator columns are written over, the header does not grow and no
    row moves. *)
Theorem enrichment_idempotent (df out : DataFrame Date) :
  add_technical_indicators df = Ok out →
  add_technical_indicators out = Ok out.
Proof.
  intros Hind.
  pose proof (indicators_columns df out Hind) as Hcols.
  pose proof (add_technical_indicators_rows df out Hind) as Hrows.
  assert (Forall (λ c, c ∈ columns df) ["ticker"; "date"; "close"]) as Hdf.
  { pose proof Hind as Hreq.
    unfold add_technical_indicators, sort_values in Hreq.
    destruct (require df ["ticker"; "date"]) as [[]|e] eqn:H1; [|done].
    cbn [mbind result_bind] in Hreq.
    destruct (require _ ["ticker"]) as [[]|e] eqn:H2; [|done].
    cbn [mbind result_bind] in Hreq.
    destruct (require _ ["close"]) as [[]|e] eqn:H3; [|done].
    apply require_Ok_inv in H1, H3. cbn [columns] in H3.
    apply Forall_cons in H1 as [Ht [Hd _]%Forall_cons].
    apply Forall_cons in H3 as [Hc _]. by repeat constructor. }
  assert (Forall (λ c, c ∈ columns out) ["ticker"; "date"; "close"]) as Hout.
  { eapply Forall_impl; [exact Hdf|]. intros c Hc. simpl in Hc.
    rewrite Hcols. apply foldl_add_column_elem. by left. }
  destruct (add_technical_indicators_Ok out Hout) as [out2 Hind2].
  rewrite Hind2. f_equal. destruct out2 as [cols2 rows2], out as [cols1 rows1].
  pose proof (indicators_columns _ _ Hind2) as Hcols2.
  pose proof (add_technical_indicators_rows _ _ Hind2) as Hrows2.
  cbn [columns rows] in *. f_equal.
  - rewrite Hcols2. apply foldl_add_column_present.
    repeat constructor; rewrite Hcols; apply foldl_add_column_elem; right;
      apply (bool_decide_unpack _); vm_compute; exact I.
  - set (l := stable_sort row_leb (rows df)) in *.
    assert (StronglySorted (λ a b, row_leb a b = true) rows1) as Hs.
    { eapply (rows_sorted_by_keys l);
        [|apply (stable_sort_StronglySorted row_leb);
          [apply row_leb_total|apply row_leb_trans]].
      rewrite Hrows, fmap_imap. rewrite <- (imap_const sort_key l).
      by apply imap_ext. }
    rewrite (stable_sort_sorted row_leb rows1 Hs) in Hrows2.
    assert (∀ T, close <$> filter (λ x, ticker x = T) rows1
                 = close <$> filter (λ x, ticker x = T) l) as Hclose.
    { intros T. rewrite Hrows, filter_enriched. apply close_enrich_group. }
    assert (∀ i T, length (filter (λ x, ticker x = T) (take i rows1))
                   = length (filter (λ x, ticker x = T) (take i l)))
      as Hcount.
    { intros i T. apply filter_ticker_length. rewrite !fmap_take. f_equal.
      rewrite Hrows, fmap_imap.
      rewrite <- (imap_const ticker l). by apply imap_ext. }
    rewrite Hrows2. apply list_eq. intros i. rewrite list_lookup_imap.
    destruct (rows1 !! i) as [r'|] eqn:Hr'; [|done].
    assert (∃ r, r' = with_indicators
                        (close <$> filter (λ x, ticker x = ticker r) l)
                        (length (filter (λ x, ticker x = ticker r) (take i l)))
                        r) as [r ->].
    { rewrite Hrows, list_lookup_imap in Hr'.
      destruct (l !! i) as [r|]; [|done]. injection Hr' as <-. by exists r. }
    cbn [fmap option_fmap option_map]. f_equal.
    change (ticker (with_indicators _ _ r)) with (ticker r).
    rewrite Hclose, Hcount. done.
Qed.

Lemma enrichment_idempotent_witness :
  add_technical_indicators enriched_1 = Ok enriched_1.
Proof.
  apply (enrichment_idempotent monthly_1 enriched_1).
  apply monthly_1_enriched.
Defined.

(** X10: enrichment succeeds exactly on a table that has the columns
    ticker, date and close; on any other table it raises for the first of
    the three that is missing and returns no table. *)
Theorem enrichment_needs_columns (df : DataFrame Date) :
  ((∃ out, add_technical_indicators df = Ok out)
   ↔ Forall (λ c, c ∈ columns df) ["ticker"; "date"; "close"])
  ∧ ∀ e, add_technical_indicators df = Err e →
      ∃ c, e = SchemaError [c]
           ∧ head (filter (λ c, c ∉ columns df) ["ticker"; "date"; "close"])
             = Some c.
Proof.
  unfold add_technical_indicators, sort_values, require.
  rewrite !filter_cons.
  destruct (decide ("ticker" ∉ columns df)) as [Ht|Ht].
  { cbn [mbind result_bind]. split.
    - split; [by intros [? ?]|]. by intros [? _]%Forall_cons.
    - intros e [= <-]. by exists "ticker". }
  destruct (decide ("date" ∉ columns df)) as [Hd|Hd].
  { cbn [mbind result_bind]. split.
    - split; [by intros [? ?]|]. by intros [_ [? _]%Forall_cons]%Forall_cons.
    - intros e [= <-]. by exists "date". }
  cbn [filter list_filter mbind result_bind columns].
  destruct (decide ("ticker" ∉ columns df)); [done|].
  cbn [filter list_filter mbind result_bind columns].
  destruct (decide ("close" ∉ columns df)) as [Hc|Hc].
  { cbn [mbind result_bind]. split.
    - split; [by intros [? ?]|]. by intros [_ [_ [? _]%Forall_cons]%Forall_cons]%Forall_cons.
    - intros e [= <-]. by exists "close". }
  cbn [filter list_filter mbind result_bind]. split; [|done].
  split; [|eauto]. intros _. repeat constructor; by apply dec_stable.
Qed.

(** ** Indicators of a flat close series *)

Lemma Qc_eq_bool_refl (q : Qc) : Qc_eq_bool q q = true.
Proof. unfold Qc_eq_bool. by destruct (Qcanon.Qc_eq_dec q q). Qed.

Lemma roll_mean_constant (window : nat) (values : list Qc) (v : Qc)
    (n i : nat) (s : MeanState) (j : nat) :
  (2 <= window)%nat →
  i = 0%nat
  ∨ (nobs s = (i `min` window)%nat ∧ num_consecutive_same_value s = i
     ∧ prev_value s = v) →
  (j < n)%nat →
  roll_mean window window values i s (replicate n v) !! j
  = Some (if (S (i + j) <? window)%nat then None else Some v).
Proof.
  intros Hw. revert i s j.
  induction n as [|n IH]; intros i s j Hs Hj; [lia|].
  cbn [replicate roll_mean].
  rewrite (proj2 (Nat.leb_gt window 1)) by lia. rewrite orb_false_r.
  set (s' := if (i =? 0)%nat then add_mean v (mean_setup v)
             else add_mean v
                    (if (window <=? i)%nat
                     then remove_mean (nth (i - window) values 0%Qc) s
                     else s)).
  assert (nobs s' = (S i `min` window)%nat
          ∧ num_consecutive_same_value s' = S i ∧ prev_value s' = v)
    as (Hn & Hc & Hp).
  { unfold s'. destruct (i =? 0)%nat eqn:Hi0.
    - apply Nat.eqb_eq in Hi0. subst.
      cbn [nobs num_consecutive_same_value prev_value add_mean mean_setup].
      rewrite Qc_eq_bool_refl. split; [lia|done].
    - apply Nat.eqb_neq in Hi0.
      destruct Hs as [?|(Hs1 & Hs2 & Hs3)]; [done|].
      destruct (window <=? i)%nat eqn:Hle;
        cbn [nobs num_consecutive_same_value prev_value add_mean remove_mean];
        rewrite Hs1, Hs2, Hs3, Qc_eq_bool_refl.
      + apply Nat.leb_le in Hle. split; [lia|done].
      + apply Nat.leb_gt in Hle. split; [lia|done]. }
  destruct j as [|j]; cbn [lookup list_lookup].
  - f_equal. unfold calc_mean. cbv zeta. rewrite Hn, Hc, Hp, Nat.add_0_r.
    destruct (S i <? window)%nat eqn:Hlt.
    + apply Nat.ltb_lt in Hlt.
      by rewrite (proj2 (Nat.leb_gt window (S i `min` window)%nat)) by lia.
    + apply Nat.ltb_ge in Hlt.
      rewrite (proj2 (Nat.leb_le window (S i `min` window)%nat)) by lia.
      rewrite (proj2 (Nat.ltb_lt 0 (S i `min` window)%nat)) by lia.
      cbn [andb].
      by rewrite (proj2 (Nat.leb_le (S i `min` window)%nat (S i))) by lia.
  - etrans; [apply (IH (S i) s' j); [by right|lia]|].
    by replace (i + S j)%nat with (S i + j)%nat by lia.
Qed.

Lemma rolling_mean_constant (window : nat) (v : Qc) (n j : nat) :
  (2 <= window)%nat → (j < n)%nat →
  rolling_mean window (replicate n v) !! j
  = Some (if (S j <? window)%nat then None else Some v).
Proof.
  intros Hw Hj. unfold rolling_mean.
  by rewrite (roll_mean_constant window _ v n 0 _ j Hw) by (by left || done).
Qed.

Lemma ewm_loop_constant (alpha v : Qc) (nobs n : nat) :
  ewm_loop alpha 1 v nobs (replicate n v) = replicate n (Some v).
Proof.
  revert nobs. induction n as [|n IH]; intros nobs; [done|].
  cbn [replicate ewm_loop]. cbv zeta. rewrite Qc_eq_bool_refl.
  cbn [Nat.leb]. by rewrite IH.
Qed.

Lemma ewm_mean_constant (span : Z) (v : Qc) (n : nat) :
  ewm_mean span (replicate n v) = replicate n (Some v).
Proof.
  destruct n as [|n]; [done|].
  unfold ewm_mean. cbn [replicate Nat.leb]. cbv zeta.
  by rewrite ewm_loop_constant.
Qed.

(** X11: when every close of a ticker is the same number, the two
    exponential averages of every row of the ticker are that number
    itself, and so is each simple average from the row where it starts:
    no rounding error builds up on a flat series. *)
Theorem flat_closes_flat_indicators (df out : DataFrame Date) (T : string)
    (v : Qc) :
  add_technical_indicators df = Ok out →
  Forall (λ r, close r = v) (filter (λ x, ticker x = T) (rows df)) →
  ∀ i r, filter (λ x, ticker x = T) (rows out) !! i = Some r →
    close r = v ∧ EMA_10 r = Some v ∧ EMA_20 r = Some v
    ∧ SMA_10 r = (if (S i <? 10)%nat then None else Some v)
    ∧ SMA_20 r = (if (S i <? 20)%nat then None else Some v).
Proof.
  intros Hind Hflat i r. rewrite (indicators_by_ticker df out T Hind).
  set (g := stable_sort row_leb (filter (λ x, ticker x = T) (rows df))).
  intros (r0 & Hr0 & ->)%enrich_group_lookup.
  assert (Forall (λ r, close r = v) g) as Hg.
  { rewrite Forall_forall in Hflat. apply Forall_forall. intros x Hx.
    apply Hflat. unfold g in Hx.
    by rewrite (stable_sort_Permutation row_leb) in Hx. }
  assert (close <$> g = replicate (length g) v) as Hc.
  { clear -Hg. induction Hg as [|x l Hx _ IH]; [done|].
    cbn [fmap list_fmap length replicate]. by rewrite Hx, IH. }
  assert (i < length g)%nat as Hi by (by eapply lookup_lt_Some).
  assert (close r0 = v) as Hr0v.
  { rewrite Forall_forall in Hg. apply Hg.
    by apply list_elem_of_lookup_2 in Hr0. }
  cbn [close EMA_10 EMA_20 SMA_10 SMA_20 with_indicators]. rewrite Hc.
  rewrite !ewm_mean_constant, !rolling_mean_constant by (lia || done).
  by rewrite lookup_replicate_2 by done.
Qed.

Lemma monthly_flat_enriched :
  add_technical_indicators monthly_flat = Ok enriched_flat.
Proof.
  unfold enriched_flat.
  destruct (add_technical_indicators monthly_flat) as [final|e] eqn:Hind;
    [done|].
  vm_compute in Hind. discriminate.
Qed.

Lemma flat_closes_flat_indicators_witness :
  ∃ r, filter (λ x, ticker x = "A") (rows enriched_flat) !! 10%nat = Some r
       ∧ close r = price 3 ∧ EMA_10 r = Some (price 3)
       ∧ EMA_20 r = Some (price 3)
       ∧ SMA_10 r = Some (price 3) ∧ SMA_20 r = None.
Proof.
  destruct (lookup_lt_is_Some_2
              (filter (λ x, ticker x = "A") (rows enriched_flat)) 10)
    as [r Hr].
  { vm_compute. lia. }
  exists r. split; [done|].
  assert (Forall (λ r, close r = price 3)
            (filter (λ x, ticker x = "A") (rows monthly_flat))) as Hflat.
  { apply (bool_decide_unpack _). vm_compute. exact I. }
  exact (flat_closes_flat_indicators monthly_flat enriched_flat "A" (price 3)
           monthly_flat_enriched Hflat 10%nat r Hr).
Defined.

(** ** The files a run leaves *)

Lemma save_loop_prefix (can_write : string → bool) (df : DataFrame Date)
    (output_folder : string) (tickers : list string) :
  columns df = enriched_columns →
  ∃ saved, saved `prefix_of` tickers
           ∧ (save_loop can_write df output_folder tickers).1
             = file_for df output_folder <$> saved.
Proof.
  intros Hcols. induction tickers as [|s tickers IH].
  - by exists [].
  - rewrite save_loop_step by done.
    destruct (can_write (file_of output_folder s)).
    + destruct IH as (saved & Hpre & Heq). exists (s :: saved).
      split; [by apply prefix_cons|]. cbn [fst]. by rewrite Heq.
    + exists []. split; [apply prefix_nil|done].
Qed.

(** X12: whatever the outcome of a run, the files it leaves have pairwise
    distinct names; each is the result file of one ticker, has the
    eleven-column header and at least one record, and every record of it
    has eleven cells, the first being that ticker. *)
Theorem written_files_well_formed
    (parse_date : string → option datetime) (can_write : string → bool)
    (files : gmap string (DataFrame string)) :
  NoDup (written (main parse_date can_write files)).*1
  ∧ Forall (λ f, ∃ s,
              f.1 = file_of OUTPUT_DIR s
              ∧ header f.2 = enriched_columns
              ∧ records f.2 ≠ []
              ∧ Forall (λ rec, length rec = 11%nat ∧ head rec = Some (Text s))
                  (records f.2))
      (written (main parse_date can_write files)).
Proof.
  unfold main.
  destruct (load_and_prepare_data parse_date files INPUT_FILE)
    as [raw|e] eqn:Hload; [|split; constructor].
  cbn [mbind result_bind].
  destruct (aggregate_to_monthly_na raw) as [monthly|e] eqn:Hagg;
    [|split; constructor].
  cbn [mbind result_bind].
  destruct (add_technical_indicators monthly) as [final|e] eqn:Hfinal;
    [|split; constructor].
  assert (columns final = enriched_columns) as Hcols.
  { apply indicators_columns in Hfinal.
    by rewrite (aggregate_na_columns _ _ Hagg) in Hfinal. }
  assert (written
            match save_by_ticker can_write final OUTPUT_DIR with
            | (out, Ok _) => mkRun out Completed
            | (out, Err e) => mkRun out (Failed e)
            end
          = (save_by_ticker can_write final OUTPUT_DIR).1) as ->.
  { by destruct (save_by_ticker can_write final OUTPUT_DIR) as [out [[]|e]]. }
  rewrite save_by_ticker_loop by done.
  destruct (save_loop_prefix can_write final OUTPUT_DIR
              (unique (ticker <$> rows final)) Hcols)
    as (saved & [rest Hsaved] & ->).
  pose proof (NoDup_unique (ticker <$> rows final)) as Hnodup.
  rewrite Hsaved in Hnodup. apply NoDup_app in Hnodup as (Hnodup & _ & _).
  assert (∀ s, s ∈ saved → ∃ r, r ∈ rows final ∧ ticker r = s) as Hrow.
  { intros s Hs.
    assert (s ∈ unique (ticker <$> rows final)) as Hin
      by (rewrite Hsaved; apply elem_of_app; by left).
    apply elem_of_unique, list_elem_of_fmap in Hin as (r & -> & Hr). eauto. }
  split.
  - rewrite <- list_fmap_compose.
    by apply (NoDup_fmap_2 (file_of OUTPUT_DIR)).
  - apply Forall_fmap, Forall_forall. intros s Hs. exists s.
    cbn [fst snd file_for header records compose].
    split; [done|]. split; [done|]. split.
    + destruct (Hrow s Hs) as (r & Hr & Hrs).
      assert (r ∈ filter (λ x, ticker x = s) (rows final)) as Hin
        by (by apply list_elem_of_filter).
      destruct (filter (λ x, ticker x = s) (rows final)); [|done].
      by apply elem_of_nil in Hin.
    + apply Forall_fmap, Forall_forall.
      intros r [Hr _]%list_elem_of_filter.
      cbn [compose record_of length head]. by rewrite Hr.
Qed.
(** ** Rows without a date in the loaded table *)

Lemma StronglySorted_lookup_lt {A : Type} (R : relation A) (l : list A)
    (i j : nat) (x y : A) :
  StronglySorted R l → l !! i = Some x → l !! j = Some y → (i < j)%nat →
  R x y.
Proof.
  intros Hs. revert i j.
  induction Hs as [|z l Hs IH Hz]; intros i j Hi Hj Hlt; [done|].
  destruct i as [|i], j as [|j]; try lia; cbn [lookup list_lookup] in Hi, Hj.
  - injection Hi as ->. rewrite Forall_forall in Hz. apply Hz.
    by apply list_elem_of_lookup_2 in Hj.
  - apply (IH i j); [done|done|lia].
Qed.

(** X13: in the loaded table the rows of a ticker that have no date (NaT)
    come after all the rows of that ticker that have one. *)
Theorem loaded_undated_rows_last
    (parse_date : string → option datetime)
    (files : gmap string (DataFrame string)) (file_path : string)
    (raw : DataFrame datetime) (i j : nat) (ri rj : Row datetime) (d : Date) :
  load_and_prepare_data parse_date files file_path = Ok raw →
  rows raw !! i = Some ri → rows raw !! j = Some rj →
  ticker ri = ticker rj → date ri = Timestamp d → date rj = NaT →
  (i < j)%nat.
Proof.
  intros Hload Hi Hj Ht Hdi Hdj.
  destruct (load_Ok_inv _ _ _ _ Hload) as (df & ds & _ & _ & _ & _ & ->).
  cbn [rows] in Hi, Hj.
  assert (StronglySorted (λ a b, row_leb_na a b = true)
            (stable_sort row_leb_na (zip_with set_date (rows df) ds)))
    as Hsorted
    by (apply stable_sort_StronglySorted;
          [apply row_leb_na_total|apply row_leb_na_trans]).
  destruct (decide (i < j)%nat) as [|Hge]; [done|]. exfalso.
  destruct (decide (i = j)) as [->|Hne]; [congruence|].
  pose proof (StronglySorted_lookup_lt _ _ j i rj ri Hsorted Hj Hi) as Hle.
  unfold row_leb_na, key_leb_na, sort_key in Hle. cbn [fst snd] in Hle.
  rewrite Ht, Hdi, Hdj in Hle.
  rewrite string_compare_refl in Hle.
  cbn [datetime_leb] in Hle. specialize (Hle ltac:(lia)). done.
Qed.

Lemma sample_undated_is_loaded :
  load_and_prepare_data iso_date {[INPUT_FILE := sample_undated]} INPUT_FILE
  = Ok sample_undated_loaded.
Proof.
  unfold sample_undated_loaded.
  destruct (load_and_prepare_data _ _ _) as [raw|e] eqn:Hload; [done|].
  vm_compute in Hload. discriminate.
Qed.

Lemma loaded_undated_rows_last_witness :
  ∃ ri rj d,
    rows sample_undated_loaded !! 2%nat = Some ri
    ∧ rows sample_undated_loaded !! 3%nat = Some rj
    ∧ ticker ri = ticker rj ∧ date ri = Timestamp d ∧ date rj = NaT
    ∧ (2 < 3)%nat.
Proof.
  destruct (rows sample_undated_loaded !! 2%nat) as [ri|] eqn:Hi;
    [|vm_compute in Hi; discriminate].
  destruct (rows sample_undated_loaded !! 3%nat) as [rj|] eqn:Hj;
    [|vm_compute in Hj; discriminate].
  assert (ticker ri = ticker rj) as Ht.
  { vm_compute in Hi, Hj. injection Hi as <-. by injection Hj as <-. }
  assert (date ri = Timestamp (mkDate 2020 2 3)) as Hdi.
  { vm_compute in Hi. by injection Hi as <-. }
  assert (date rj = NaT) as Hdj.
  { vm_compute in Hj. by injection Hj as <-. }
  exists ri, rj, (mkDate 2020 2 3). do 5 (split; [done|]).
  exact (loaded_undated_rows_last iso_date {[INPUT_FILE := sample_undated]}
           INPUT_FILE sample_undated_loaded 2 3 ri rj (mkDate 2020 2 3)
           sample_undated_is_loaded Hi Hj Ht Hdi Hdj).
Defined.
